(** * MPInt: a 64-bit fast path over a GMP fallback

    A shallow embedding of [Math.h], [SlowMPInt.{h,cpp}] and [MPInt.{h,cpp}].

    - An [int64_t] is a [Z] inside [Int64.in_range]; a [uint64_t] is a [Z]
      reduced modulo [2^64].  Unsigned arithmetic wraps around.  Signed
      arithmetic that leaves the range, a division by zero and a failed
      [assert] have no result: such code returns [None].
    - [Module Slow] and [Module MP] read the code on the integers held: an
      [mpz_t] is the integer it holds, a GMP function is what the GMP
      manual says it computes, and a [SlowMPInt] constructed from another
      holds the same integer.
    - [Module Storage] and [Module Dispatch] read the code with the storage
      of every [mpz_t]: an [mpz_t] owns limbs only after [mpz_init], and a
      GMP function applied to one that owns none has no result.  The copy
      constructor of [SlowMPInt] calls no [mpz_init]; what the operators
      of [MPInt.h] return when they run it is settled there. *)

From Stdlib Require Import ZArith Lia Bool List.
From stdpp Require Import base option gmap.
Import ListNotations.

Local Open Scope Z_scope.

(** ** 64-bit words *)

Module Int64.

Definition modulus : Z := 18446744073709551616.          (* 2^64 *)
Definition half_modulus : Z := 9223372036854775808.      (* 2^63 *)
(** [std::numeric_limits<int64_t>::min()] and [max()]. *)
Definition min_signed : Z := -9223372036854775808.
Definition max_signed : Z := 9223372036854775807.

Definition in_range (z : Z) : Prop := min_signed <= z <= max_signed.
Definition fits (z : Z) : bool := (min_signed <=? z) && (z <=? max_signed).

(** [static_cast<uint64_t>(x)]. *)
Definition to_unsigned (x : Z) : Z := x mod modulus.
(** [static_cast<int64_t>(u)]: the two's complement reading. *)
Definition to_signed (u : Z) : Z :=
  let r := u mod modulus in
  if r <? half_modulus then r else r - modulus.

(** [uint64_t] arithmetic. *)
Definition uadd (a b : Z) : Z := (a + b) mod modulus.
Definition usub (a b : Z) : Z := (a - b) mod modulus.
Definition umul (a b : Z) : Z := (a * b) mod modulus.
Definition udiv (a b : Z) : Z := a / b.

(** [int64_t] arithmetic: no result outside the range. *)
Definition checked (z : Z) : option Z := if fits z then Some z else None.
Definition sadd (a b : Z) : option Z := checked (a + b).
Definition ssub (a b : Z) : option Z := checked (a - b).
Definition sneg (a : Z) : option Z := checked (- a).
(** [a / b] truncates; it has no result for [b = 0] and for
    [min_signed / -1]. *)
Definition sdiv (a b : Z) : option Z :=
  if b =? 0 then None else checked (Z.quot a b).
(** [a % b] has a result exactly when [a / b] has one. *)
Definition srem (a b : Z) : option Z :=
  if b =? 0 then None
  else if fits (Z.quot a b) then Some (Z.rem a b) else None.

End Int64.

(** ** The compiler

    [Math.h] and [MPInt.h] pick the overflow intrinsics with
    [__has_builtin]. *)

Record Compiler : Type := mkCompiler {
  has_builtin_add_overflow : bool;
  has_builtin_sub_overflow : bool;
  has_builtin_mul_overflow : bool
}.

(** The intrinsics compute on the exact integers, store the truncated
    result and report whether it differs from the exact one. *)
Definition builtin_add_overflow (x y : Z) : Z * bool :=
  (Int64.to_signed (x + y), negb (Int64.fits (x + y))).
Definition builtin_sub_overflow (x y : Z) : Z * bool :=
  (Int64.to_signed (x - y), negb (Int64.fits (x - y))).
Definition builtin_mul_overflow (x y : Z) : Z * bool :=
  (Int64.to_signed (x * y), negb (Int64.fits (x * y))).

(** ** Math.h *)

Module math.
Import Int64.

(** [AddOverflow(X, Y, Result)]: the pair is ([Result], returned flag). *)
Definition AddOverflow (cc : Compiler) (X Y : Z) : Z * bool :=
  if has_builtin_add_overflow cc then builtin_add_overflow X Y
  else
    let UX := to_unsigned X in
    let UY := to_unsigned Y in
    let UResult := uadd UX UY in
    let Result := to_signed UResult in
    if (X >? 0) && (Y >? 0) then (Result, Result <=? 0)
    else if (X <? 0) && (Y <? 0) then (Result, Result >=? 0)
    else (Result, false).

Definition SubOverflow (cc : Compiler) (X Y : Z) : Z * bool :=
  if has_builtin_sub_overflow cc then builtin_sub_overflow X Y
  else
    let UX := to_unsigned X in
    let UY := to_unsigned Y in
    let UResult := usub UX UY in
    let Result := to_signed UResult in
    if (X <=? 0) && (Y >? 0) then (Result, Result >=? 0)
    else if (X >=? 0) && (Y <? 0) then (Result, Result <=? 0)
    else (Result, false).

(** [MulOverflow] has no intrinsic branch. *)
Definition MulOverflow (X Y : Z) : Z * bool :=
  let UX := if X <? 0 then usub 0 (to_unsigned X) else to_unsigned X in
  let UY := if Y <? 0 then usub 0 (to_unsigned Y) else to_unsigned Y in
  let UResult := umul UX UY in
  let IsNegative := xorb (X <? 0) (Y <? 0) in
  let Result := to_signed (if IsNegative then usub 0 UResult else UResult) in
  if (UX =? 0) || (UY =? 0) then (Result, false)
  else if IsNegative
    then (Result, UX >? udiv (uadd (to_unsigned max_signed) 1) UY)
    else (Result, UX >? udiv (to_unsigned max_signed) UY).

Definition ceilDiv (lhs rhs : Z) : option Z :=
  if rhs =? 0 then None                                  (* assert(rhs != 0) *)
  else
    let x := if rhs >? 0 then -1 else 1 in
    if negb (lhs =? 0) && Bool.eqb (lhs >? 0) (rhs >? 0)
    then t ← sadd lhs x; q ← sdiv t rhs; sadd q 1
    else n ← sneg lhs; q ← sdiv n rhs; sneg q.

Definition floorDiv (lhs rhs : Z) : option Z :=
  if rhs =? 0 then None                                  (* assert(rhs != 0) *)
  else
    let x := if rhs <? 0 then 1 else -1 in
    if negb (lhs =? 0) && negb (Bool.eqb (lhs <? 0) (rhs <? 0))
    then n ← sneg lhs; t ← sadd n x; q ← sdiv t rhs; m ← sneg q; ssub m 1
    else sdiv lhs rhs.

(** [mod]; the name is a notation token here, hence the underscore. *)
Definition mod_ (lhs rhs : Z) : option Z :=
  if negb (rhs >=? 1) then None                          (* assert(rhs >= 1) *)
  else
    r ← srem lhs rhs;
    if r <? 0 then r' ← srem lhs rhs; sadd r' rhs else srem lhs rhs.

End math.

(** ** GMP

    The functions of the GMP manual that [SlowMPInt.cpp] calls, on the
    integers held.  The division functions have no result for a zero
    divisor. *)

Module Gmp.

Definition mpz_set_si (v : Z) : Z := v.
Definition mpz_add (a b : Z) : Z := a + b.
Definition mpz_sub (a b : Z) : Z := a - b.
Definition mpz_mul (a b : Z) : Z := a * b.
Definition mpz_neg (a : Z) : Z := - a.
(** Quotient rounded towards zero. *)
Definition mpz_tdiv_q (n d : Z) : option Z :=
  if d =? 0 then None else Some (Z.quot n d).
(** Quotient rounded up. *)
Definition mpz_cdiv_q (n d : Z) : option Z :=
  if d =? 0 then None else Some (- ((- n) / d)).
(** Quotient rounded down. *)
Definition mpz_fdiv_q (n d : Z) : option Z :=
  if d =? 0 then None else Some (n / d).
(** "The sign of the divisor is ignored; the result is always
    non-negative." *)
Definition mpz_mod (n d : Z) : option Z :=
  if d =? 0 then None else Some (n mod Z.abs d).
(** "The result is always positive even if one or both input operands are
    negative.  Except if both inputs are zero; then this function defines
    gcd(0,0) = 0." *)
Definition mpz_gcd (a b : Z) : Z := Z.gcd a b.
(** A positive value if [a > b], zero if [a = b], a negative value if
    [a < b]. *)
Definition mpz_cmp (a b : Z) : Z :=
  match a ?= b with Lt => -1 | Eq => 0 | Gt => 1 end.

(** [mpz_get_si]: "If op fits into a signed long int return the value of
    op.  Otherwise return the least significant part of op, with the same
    sign as op."  The library takes the low 63 bits of the magnitude of a
    positive number, and of the magnitude less one for a negative number. *)
Definition mpz_get_si (v : Z) : Z :=
  if v =? 0 then 0
  else if v >? 0 then v mod Int64.half_modulus
  else -1 - ((- v - 1) mod Int64.half_modulus).

End Gmp.

(** ** SlowMPInt.cpp *)

Record SlowMPInt : Type := mkSlow { val : Z }.

Module Slow.
Import Gmp.

(** [SlowMPInt(int64_t)], with [long] a 64-bit type. *)
Definition of_int64 (v : Z) : SlowMPInt := mkSlow (mpz_set_si v).

Definition eq (a o : SlowMPInt) : bool := mpz_cmp (val a) (val o) =? 0.
Definition ne (a o : SlowMPInt) : bool := negb (mpz_cmp (val a) (val o) =? 0).
Definition gt (a o : SlowMPInt) : bool := mpz_cmp (val a) (val o) >? 0.
Definition lt (a o : SlowMPInt) : bool := mpz_cmp (val a) (val o) <? 0.
Definition le (a o : SlowMPInt) : bool := mpz_cmp (val a) (val o) <=? 0.
Definition ge (a o : SlowMPInt) : bool := mpz_cmp (val a) (val o) >=? 0.

Definition add (a o : SlowMPInt) : SlowMPInt := mkSlow (mpz_add (val a) (val o)).
Definition sub (a o : SlowMPInt) : SlowMPInt := mkSlow (mpz_sub (val a) (val o)).
Definition mul (a o : SlowMPInt) : SlowMPInt := mkSlow (mpz_mul (val a) (val o)).
(** [operator/]. *)
Definition div (a o : SlowMPInt) : option SlowMPInt :=
  mkSlow <$> mpz_tdiv_q (val a) (val o).
(** [operator%]. *)
Definition rem (a o : SlowMPInt) : option SlowMPInt :=
  mkSlow <$> mpz_mod (val a) (val o).
Definition neg (a : SlowMPInt) : SlowMPInt := mkSlow (mpz_neg (val a)).

Definition abs (x : SlowMPInt) : SlowMPInt :=
  if ge x (of_int64 0) then x else neg x.
Definition ceilDiv (lhs rhs : SlowMPInt) : option SlowMPInt :=
  if eq rhs (of_int64 (-1)) then Some (neg lhs)
  else mkSlow <$> mpz_cdiv_q (val lhs) (val rhs).
Definition floorDiv (lhs rhs : SlowMPInt) : option SlowMPInt :=
  if eq rhs (of_int64 (-1)) then Some (neg lhs)
  else mkSlow <$> mpz_fdiv_q (val lhs) (val rhs).
Definition mod_ (lhs rhs : SlowMPInt) : option SlowMPInt :=
  if negb (ge rhs (of_int64 1)) then None               (* assert(rhs >= 1) *)
  else
    r ← rem lhs rhs;
    if lt r (of_int64 0) then r' ← rem lhs rhs; Some (add r' rhs)
    else rem lhs rhs.
Definition gcd (a b : SlowMPInt) : option SlowMPInt :=
  if negb (ge a (of_int64 0) && ge b (of_int64 0)) then None   (* assert *)
  else Some (mkSlow (mpz_gcd (val a) (val b))).
Definition lcm (a b : SlowMPInt) : option SlowMPInt :=
  let x := abs a in
  let y := abs b in
  g ← gcd x y; div (mul x y) g.

(** [explicit operator int64_t()]. *)
Definition to_int64 (s : SlowMPInt) : Z := mpz_get_si (val s).

(** The comparisons with an [int64_t] on either side construct a
    [SlowMPInt] from the word. *)
Definition eq_int (a : SlowMPInt) (b : Z) : bool := eq a (of_int64 b).
Definition ne_int (a : SlowMPInt) (b : Z) : bool := ne a (of_int64 b).
Definition gt_int (a : SlowMPInt) (b : Z) : bool := gt a (of_int64 b).
Definition lt_int (a : SlowMPInt) (b : Z) : bool := lt a (of_int64 b).
Definition le_int (a : SlowMPInt) (b : Z) : bool := le a (of_int64 b).
Definition ge_int (a : SlowMPInt) (b : Z) : bool := ge a (of_int64 b).
Definition int_eq (a : Z) (b : SlowMPInt) : bool := eq (of_int64 a) b.
Definition int_ne (a : Z) (b : SlowMPInt) : bool := ne (of_int64 a) b.
Definition int_gt (a : Z) (b : SlowMPInt) : bool := gt (of_int64 a) b.
Definition int_lt (a : Z) (b : SlowMPInt) : bool := lt (of_int64 a) b.
Definition int_le (a : Z) (b : SlowMPInt) : bool := le (of_int64 a) b.
Definition int_ge (a : Z) (b : SlowMPInt) : bool := ge (of_int64 a) b.

End Slow.

(** ** MPInt.h, on the integers held *)

Module detail.

Definition addOverflow (cc : Compiler) (x y : Z) : Z * bool :=
  if has_builtin_add_overflow cc then builtin_add_overflow x y
  else math.AddOverflow cc x y.
Definition subOverflow (cc : Compiler) (x y : Z) : Z * bool :=
  if has_builtin_sub_overflow cc then builtin_sub_overflow x y
  else math.SubOverflow cc x y.
Definition mulOverflow (cc : Compiler) (x y : Z) : Z * bool :=
  if has_builtin_mul_overflow cc then builtin_mul_overflow x y
  else math.MulOverflow x y.

Definition divWouldOverflow (x y : Z) : bool :=
  (x =? Int64.min_signed) && (y =? -1).

End detail.

(** [holdsLarge] and the union of [valSmall] and [valLarge]. *)
Inductive MPInt : Type :=
  | Small (valSmall : Z)
  | Large (valLarge : SlowMPInt).

(** [std::gcd] on [int64_t]: no result when an absolute value is not an
    [int64_t]. *)
Definition std_gcd (m n : Z) : option Z :=
  if Int64.fits (Z.abs m) && Int64.fits (Z.abs n) then Some (Z.gcd m n) else None.

Module MP.
Import Int64.

Definition isSmall (x : MPInt) : bool :=
  match x with Small _ => true | Large _ => false end.
Definition isLarge (x : MPInt) : bool := negb (isSmall x).

(** [explicit operator SlowMPInt()].  The copy that [return getLarge()]
    makes is the number copied here; [Dispatch.toSlow] has its storage. *)
Definition toSlow (x : MPInt) : SlowMPInt :=
  match x with Small v => Slow.of_int64 v | Large s => s end.

(** [initSmall] and [initLarge] leave [*this] as returned; the storage
    that [initLarge] constructs is in [Storage.initLarge]. *)
Definition initSmall (this : MPInt) (o : Z) : MPInt := Small o.
Definition initLarge (this : MPInt) (o : SlowMPInt) : MPInt := Large o.

(** [MPInt(const MPInt &)]: the members start as [valSmall(o.valSmall)],
    [holdsLarge(false)]; for a large [o] that word is overwritten by
    [initLarge] at once, and stands as 0 here. *)
Definition copy (o : MPInt) : MPInt :=
  match o with
  | Small v => Small v
  | Large s => initLarge (Small 0) s
  end.
(** [operator=(const MPInt &)] and [operator=(int)], whose argument is an
    [int]. *)
Definition assign (this o : MPInt) : MPInt :=
  match o with
  | Small v => initSmall this v
  | Large s => initLarge this s
  end.
Definition assign_int (this : MPInt) (x : Z) : MPInt := initSmall this x.

(** The number held. *)
Definition value (x : MPInt) : Z :=
  match x with Small v => v | Large s => val s end.

(** A small value holds an [int64_t]. *)
Definition wf (x : MPInt) : Prop :=
  match x with Small v => in_range v | Large _ => True end.

(** *** Comparisons *)
Definition eq (x o : MPInt) : bool :=
  match x, o with
  | Small a, Small b => a =? b
  | _, _ => Slow.eq (toSlow x) (toSlow o)
  end.
Definition ne (x o : MPInt) : bool :=
  match x, o with
  | Small a, Small b => negb (a =? b)
  | _, _ => Slow.ne (toSlow x) (toSlow o)
  end.
(** [operator>=(const MPInt &, int64_t)] and [operator>]. *)
Definition ge_int (a : MPInt) (b : Z) : bool :=
  match a with
  | Small v => v >=? b
  | Large s => Slow.ge s (Slow.of_int64 b)
  end.
Definition gt_int (a : MPInt) (b : Z) : bool :=
  match a with
  | Small v => v >? b
  | Large s => Slow.gt s (Slow.of_int64 b)
  end.

(** *** Arithmetic *)
Definition add (cc : Compiler) (x o : MPInt) : MPInt :=
  match x, o with
  | Small a, Small b =>
      let '(result, overflow) := detail.addOverflow cc a b in
      if negb overflow then Small result
      else Large (Slow.add (toSlow x) (toSlow o))
  | _, _ => Large (Slow.add (toSlow x) (toSlow o))
  end.
Definition sub (cc : Compiler) (x o : MPInt) : MPInt :=
  match x, o with
  | Small a, Small b =>
      let '(result, overflow) := detail.subOverflow cc a b in
      if negb overflow then Small result
      else Large (Slow.sub (toSlow x) (toSlow o))
  | _, _ => Large (Slow.sub (toSlow x) (toSlow o))
  end.
Definition mul (cc : Compiler) (x o : MPInt) : MPInt :=
  match x, o with
  | Small a, Small b =>
      let '(result, overflow) := detail.mulOverflow cc a b in
      if negb overflow then Small result
      else Large (Slow.mul (toSlow x) (toSlow o))
  | _, _ => Large (Slow.mul (toSlow x) (toSlow o))
  end.

(** Unary [operator-]. *)
Definition neg (x : MPInt) : MPInt :=
  match x with
  | Small v =>
      if negb (v =? min_signed) then Small (- v)
      else Large (Slow.neg (toSlow x))
  | Large _ => Large (Slow.neg (toSlow x))
  end.

Definition divByPositive (x o : MPInt) : option MPInt :=
  if negb (gt_int o 0) then None                         (* assert(o > 0) *)
  else
    match x, o with
    | Small a, Small b => Small <$> sdiv a b
    | _, _ => Large <$> Slow.div (toSlow x) (toSlow o)
    end.

(** [operator/]. *)
Definition div (x o : MPInt) : option MPInt :=
  match x, o with
  | Small a, Small b =>
      if detail.divWouldOverflow a b then Some (neg x)
      else Small <$> sdiv a b
  | _, _ => Large <$> Slow.div (toSlow x) (toSlow o)
  end.

Definition abs (x : MPInt) : MPInt :=
  if ge_int x 0 then copy x else neg x.

Definition ceilDiv (lhs rhs : MPInt) : option MPInt :=
  match lhs, rhs with
  | Small a, Small b =>
      if detail.divWouldOverflow a b then Some (neg lhs)
      else Small <$> math.ceilDiv a b
  | _, _ => Large <$> Slow.ceilDiv (toSlow lhs) (toSlow rhs)
  end.
Definition floorDiv (lhs rhs : MPInt) : option MPInt :=
  match lhs, rhs with
  | Small a, Small b =>
      if detail.divWouldOverflow a b then Some (neg lhs)
      else Small <$> math.floorDiv a b
  | _, _ => Large <$> Slow.floorDiv (toSlow lhs) (toSlow rhs)
  end.
Definition mod_ (lhs rhs : MPInt) : option MPInt :=
  match lhs, rhs with
  | Small a, Small b => Small <$> math.mod_ a b
  | _, _ => Large <$> Slow.mod_ (toSlow lhs) (toSlow rhs)
  end.

Definition gcd (a b : MPInt) : option MPInt :=
  if negb (ge_int a 0 && ge_int b 0) then None           (* assert *)
  else
    match a, b with
    | Small x, Small y => Small <$> std_gcd x y
    | _, _ => Large <$> Slow.gcd (toSlow a) (toSlow b)
    end.

Definition lcm (cc : Compiler) (a b : MPInt) : option MPInt :=
  let x := abs a in
  let y := abs b in
  g ← gcd x y; div (mul cc x y) g.

(** [operator%]. *)
Definition rem (x o : MPInt) : option MPInt :=
  match x, o with
  | Small a, Small b => Small <$> srem a b
  | _, _ => Large <$> Slow.rem (toSlow x) (toSlow o)
  end.

(** *** In-place forms: the result is the new [*this]. *)
Definition add_assign (cc : Compiler) (this o : MPInt) : MPInt :=
  match this, o with
  | Small a, Small b =>
      let '(result, overflow) := detail.addOverflow cc a b in
      if negb overflow then Small result
      else assign this (Large (Slow.add (toSlow this) (toSlow o)))
  | _, _ => assign this (Large (Slow.add (toSlow this) (toSlow o)))
  end.
Definition sub_assign (cc : Compiler) (this o : MPInt) : MPInt :=
  match this, o with
  | Small a, Small b =>
      let '(result, overflow) := detail.subOverflow cc a b in
      if negb overflow then Small result
      else assign this (Large (Slow.sub (toSlow this) (toSlow o)))
  | _, _ => assign this (Large (Slow.sub (toSlow this) (toSlow o)))
  end.
Definition mul_assign (cc : Compiler) (this o : MPInt) : MPInt :=
  match this, o with
  | Small a, Small b =>
      let '(result, overflow) := detail.mulOverflow cc a b in
      if negb overflow then Small result
      else assign this (Large (Slow.mul (toSlow this) (toSlow o)))
  | _, _ => assign this (Large (Slow.mul (toSlow this) (toSlow o)))
  end.
Definition div_assign (this o : MPInt) : option MPInt :=
  match this, o with
  | Small a, Small b =>
      if detail.divWouldOverflow a b then Some (assign this (neg this))
      else Small <$> sdiv a b
  | _, _ => assign this <$> (Large <$> Slow.div (toSlow this) (toSlow o))
  end.
Definition divByPositiveInPlace (this o : MPInt) : option MPInt :=
  if negb (gt_int o 0) then None                         (* assert(o > 0) *)
  else
    match this, o with
    | Small a, Small b => Small <$> sdiv a b
    | _, _ => assign this <$> (Large <$> Slow.div (toSlow this) (toSlow o))
    end.
Definition rem_assign (this o : MPInt) : option MPInt :=
  assign this <$> rem this o.

(** [operator+=(MPInt &, int64_t)], [operator-=(MPInt &, int64_t)] and the
    prefix [operator++], [operator--] that call them with 1. *)
Definition add_assign_int (cc : Compiler) (a : MPInt) (b : Z) : MPInt :=
  assign a (add cc a (Small b)).
Definition sub_assign_int (cc : Compiler) (a : MPInt) (b : Z) : MPInt :=
  assign a (sub cc a (Small b)).
Definition incr (cc : Compiler) (this : MPInt) : MPInt := add_assign_int cc this 1.
Definition decr (cc : Compiler) (this : MPInt) : MPInt := sub_assign_int cc this 1.

(** *** The remaining comparisons *)
Definition gt (x o : MPInt) : bool :=
  match x, o with
  | Small a, Small b => a >? b
  | _, _ => Slow.gt (toSlow x) (toSlow o)
  end.
Definition lt (x o : MPInt) : bool :=
  match x, o with
  | Small a, Small b => a <? b
  | _, _ => Slow.lt (toSlow x) (toSlow o)
  end.
Definition le (x o : MPInt) : bool :=
  match x, o with
  | Small a, Small b => a <=? b
  | _, _ => Slow.le (toSlow x) (toSlow o)
  end.
Definition ge (x o : MPInt) : bool :=
  match x, o with
  | Small a, Small b => a >=? b
  | _, _ => Slow.ge (toSlow x) (toSlow o)
  end.

(** The comparisons of an [MPInt] with an [int64_t], which do not build an
    [MPInt] from the word ([operator>] and [operator>=] are above). *)
Definition eq_int (a : MPInt) (b : Z) : bool :=
  match a with Small v => v =? b | Large s => Slow.eq_int s b end.
Definition ne_int (a : MPInt) (b : Z) : bool :=
  match a with Small v => negb (v =? b) | Large s => Slow.ne_int s b end.
Definition lt_int (a : MPInt) (b : Z) : bool :=
  match a with Small v => v <? b | Large s => Slow.lt_int s b end.
Definition le_int (a : MPInt) (b : Z) : bool :=
  match a with Small v => v <=? b | Large s => Slow.le_int s b end.
Definition int_eq (a : Z) (b : MPInt) : bool :=
  match b with Small v => a =? v | Large s => Slow.int_eq a s end.
Definition int_ne (a : Z) (b : MPInt) : bool :=
  match b with Small v => negb (a =? v) | Large s => Slow.int_ne a s end.
Definition int_gt (a : Z) (b : MPInt) : bool :=
  match b with Small v => a >? v | Large s => Slow.int_gt a s end.
Definition int_lt (a : Z) (b : MPInt) : bool :=
  match b with Small v => a <? v | Large s => Slow.int_lt a s end.
Definition int_le (a : Z) (b : MPInt) : bool :=
  match b with Small v => a <=? v | Large s => Slow.int_le a s end.
Definition int_ge (a : Z) (b : MPInt) : bool :=
  match b with Small v => a >=? v | Large s => Slow.int_ge a s end.

(** [explicit operator int64_t()], [int64FromMPInt] and [mpintFromInt64]. *)
Definition to_int64 (x : MPInt) : Z :=
  match x with Small v => v | Large s => Slow.to_int64 s end.
Definition int64FromMPInt (x : MPInt) : Z := to_int64 x.
Definition mpintFromInt64 (x : Z) : MPInt := Small x.

End MP.

(** *** The binary operations, by name *)

Inductive binop : Type :=
  | OpAdd | OpSub | OpMul | OpDiv | OpRem
  | OpDivByPositive | OpCeilDiv | OpFloorDiv | OpMod | OpGcd | OpLcm.

Definition binop_eval (cc : Compiler) (op : binop) (x o : MPInt) : option MPInt :=
  match op with
  | OpAdd => Some (MP.add cc x o)
  | OpSub => Some (MP.sub cc x o)
  | OpMul => Some (MP.mul cc x o)
  | OpDiv => MP.div x o
  | OpRem => MP.rem x o
  | OpDivByPositive => MP.divByPositive x o
  | OpCeilDiv => MP.ceilDiv x o
  | OpFloorDiv => MP.floorDiv x o
  | OpMod => MP.mod_ x o
  | OpGcd => MP.gcd x o
  | OpLcm => MP.lcm cc x o
  end.

(** [x op= o] for the operators that have an in-place form. *)
Definition binop_assign (cc : Compiler) (op : binop) (this o : MPInt) : option MPInt :=
  match op with
  | OpAdd => Some (MP.add_assign cc this o)
  | OpSub => Some (MP.sub_assign cc this o)
  | OpMul => Some (MP.mul_assign cc this o)
  | OpDiv => MP.div_assign this o
  | OpRem => MP.rem_assign this o
  | OpDivByPositive => MP.divByPositiveInPlace this o
  | _ => None
  end.

(** ** Hashing (MPInt.cpp, SlowMPInt.cpp)

    [hash_value(int64_t)] is declared outside these files and
    [std::hash<std::string_view>] is the standard library's: both are
    parameters. *)

Record Hashers : Type := mkHashers {
  hash_int64 : Z -> Z;
  hash_string_view : list Z -> Z
}.

Module Hash.

(** The limbs [_mp_d] of a magnitude, least significant first, none for
    zero. *)
Fixpoint digits (base : Z) (fuel : nat) (n : Z) : list Z :=
  match fuel with
  | O => []
  | S fuel' =>
      if n <=? 0 then [] else (n mod base) :: digits base fuel' (n / base)
  end.
Definition limbs (v : Z) : list Z :=
  digits Int64.modulus (S (Z.to_nat (Z.log2 (Z.abs v)))) (Z.abs v).
(** [_mp_size]: the number of limbs, negated for a negative number. *)
Definition mp_size (v : Z) : Z := Z.sgn v * Z.of_nat (length (limbs v)).
(** The eight bytes of a limb, in memory order on a little-endian host. *)
Definition limb_bytes (l : Z) : list Z :=
  map (fun i => (l / 256 ^ i) mod 256) [0; 1; 2; 3; 4; 5; 6; 7].
(** The [abs(_mp_size) * sizeof(mp_limb_t)] bytes at [_mp_d]. *)
Definition view (v : Z) : list Z := flat_map limb_bytes (limbs v).

(** [std::hash<SlowMPInt>::operator()]. *)
Definition hash_Slow (H : Hashers) (s : SlowMPInt) : Z :=
  let result := hash_string_view H (view (val s)) in
  if mp_size (val s) <? 0 then Z.lxor result 1 else result.

(** [hash_value(const MPInt &)], with the two functions that it calls as
    parameters: [hash_value(int64_t)] and
    [detail::hash_value(const SlowMPInt &)]. *)
Definition hash_value_with
    (hash_small : Z -> Z) (hash_large : SlowMPInt -> Z) (x : MPInt) : Z :=
  match x with
  | Small v => hash_small v
  | Large s => hash_large s
  end.

(** [hash_value(const MPInt &)].  These files do not declare the
    [detail::hash_value] that it calls on a large value; it is read as the
    [std::hash<SlowMPInt>] above, the one hash of a [SlowMPInt] they
    have. *)
Definition hash_value (H : Hashers) (x : MPInt) : Z :=
  match x with
  | Small v => hash_int64 H v
  | Large s => hash_Slow H s
  end.

(** Two hashers to instantiate the parameters with: the identity on the
    word and 64-bit FNV-1a over the bytes.  They stand in for the two
    functions, which these files do not contain. *)
Definition identity_hash (v : Z) : Z := Int64.to_unsigned v.
Definition fnv1a (bytes : list Z) : Z :=
  fold_left (fun h b => Int64.umul (Z.lxor h b) 1099511628211)
            bytes 14695981039346656037.
Definition sample_hashers : Hashers := mkHashers identity_hash fnv1a.

End Hash.

(** ** Storage of the large representation

    An [mpz_t] owns limbs only after [mpz_init]; GMP's functions may be
    applied to initialised objects only.  The heap maps the location of
    each allocated limb array to the integer it holds. *)

Module Storage.

Definition loc : Type := positive.

Inductive mpz_t : Type :=
  | mpz_uninit                (* declared, never passed to [mpz_init] *)
  | mpz_at (l : loc).         (* initialised, limbs at [l] *)

Definition mpz_init (h : gmap loc Z) : mpz_t * gmap loc Z :=
  let l := fresh (dom h) in (mpz_at l, <[l := 0]> h).

Definition mpz_value (x : mpz_t) (h : gmap loc Z) : option Z :=
  match x with mpz_uninit => None | mpz_at l => h !! l end.

Definition mpz_set_si (dst : mpz_t) (v : Z) (h : gmap loc Z) : option (gmap loc Z) :=
  match dst with
  | mpz_uninit => None
  | mpz_at d => _ ← h !! d; Some (<[d := v]> h)
  end.

Definition mpz_set (dst src : mpz_t) (h : gmap loc Z) : option (gmap loc Z) :=
  match dst with
  | mpz_uninit => None
  | mpz_at d => _ ← h !! d; v ← mpz_value src h; Some (<[d := v]> h)
  end.

(** The constructors of [SlowMPInt] start from a member [val] that
    nothing has initialised and return it with the heap. *)
Definition SlowMPInt_of_int64 (v : Z) (h : gmap loc Z) : option (mpz_t * gmap loc Z) :=
  let '(this_val, h1) := mpz_init h in
  h2 ← mpz_set_si this_val v h1; Some (this_val, h2).

(** [SlowMPInt(const mpz_t &)]. *)
Definition SlowMPInt_of_mpz (src : mpz_t) (h : gmap loc Z) : option (mpz_t * gmap loc Z) :=
  let '(this_val, h1) := mpz_init h in
  h2 ← mpz_set this_val src h1; Some (this_val, h2).

(** [SlowMPInt(const SlowMPInt &)]. *)
Definition SlowMPInt_copy (src : mpz_t) (h : gmap loc Z) : option (mpz_t * gmap loc Z) :=
  let this_val := mpz_uninit in
  h1 ← mpz_set this_val src h; Some (this_val, h1).

Inductive MPInt : Type :=
  | Small (valSmall : Z)
  | Large (valLarge : mpz_t).

(** [initLarge]: placement new over a small value; otherwise the implicit
    assignment of [SlowMPInt], which copies the [mpz_t] member. *)
Definition initLarge (this : MPInt) (o : mpz_t) (h : gmap loc Z) : option (MPInt * gmap loc Z) :=
  match this with
  | Small _ => '(x, h1) ← SlowMPInt_copy o h; Some (Large x, h1)
  | Large _ => Some (Large o, h)
  end.

(** [MPInt(const MPInt &)]. *)
Definition copy (o : MPInt) (h : gmap loc Z) : option (MPInt * gmap loc Z) :=
  match o with
  | Small v => Some (Small v, h)
  | Large x => initLarge (Small 0) x h
  end.

Definition value (x : MPInt) (h : gmap loc Z) : option Z :=
  match x with Small v => Some v | Large m => mpz_value m h end.

End Storage.

(** ** MPInt.h over the storage of the large representation

    The operators of [MPInt.h] and the operators of [SlowMPInt.cpp] they
    call, with every [mpz_t] that they construct, read and write.  A piece
    of code runs on a heap and returns its value with the heap it leaves.
    It has no result when it applies a GMP function to an [mpz_t] that was
    not initialised, divides by zero, leaves the [int64_t] range or fails
    an [assert].  A [SlowMPInt] is its one member [val]; no code frees
    limbs, for [SlowMPInt] declares no destructor. *)

Module Dispatch.
Import Int64 Storage.

Definition run (A : Type) : Type := gmap loc Z -> option (A * gmap loc Z).
Definition ret {A : Type} (a : A) : run A := fun h => Some (a, h).
Definition bind {A B : Type} (m : run A) (k : A -> run B) : run B :=
  fun h => match m h with Some (a, h1) => k a h1 | None => None end.
Definition lift {A : Type} (o : option A) : run A :=
  fun h => match o with Some a => Some (a, h) | None => None end.
(** [assert(b)]. *)
Definition asserting (b : bool) : run unit := lift (if b then Some tt else None).

Local Notation "'let*' x := m 'in' k" := (bind m (fun x => k))
  (at level 10, x name, m at level 100, k at level 200).

(** *** GMP on initialised objects *)

Definition mpz_read (x : mpz_t) : run Z :=
  fun h => v ← mpz_value x h; Some (v, h).
Definition mpz_write (dst : mpz_t) (v : Z) : run unit :=
  fun h => h1 ← mpz_set_si dst v h; Some (tt, h1).

Definition mpz_add (rop a b : mpz_t) : run unit :=
  let* x := mpz_read a in let* y := mpz_read b in mpz_write rop (Gmp.mpz_add x y).
Definition mpz_sub (rop a b : mpz_t) : run unit :=
  let* x := mpz_read a in let* y := mpz_read b in mpz_write rop (Gmp.mpz_sub x y).
Definition mpz_mul (rop a b : mpz_t) : run unit :=
  let* x := mpz_read a in let* y := mpz_read b in mpz_write rop (Gmp.mpz_mul x y).
Definition mpz_neg (rop a : mpz_t) : run unit :=
  let* x := mpz_read a in mpz_write rop (Gmp.mpz_neg x).
Definition mpz_tdiv_q (q n d : mpz_t) : run unit :=
  let* x := mpz_read n in let* y := mpz_read d in let* r := lift (Gmp.mpz_tdiv_q x y) in mpz_write q r.
Definition mpz_cdiv_q (q n d : mpz_t) : run unit :=
  let* x := mpz_read n in let* y := mpz_read d in let* r := lift (Gmp.mpz_cdiv_q x y) in mpz_write q r.
Definition mpz_fdiv_q (q n d : mpz_t) : run unit :=
  let* x := mpz_read n in let* y := mpz_read d in let* r := lift (Gmp.mpz_fdiv_q x y) in mpz_write q r.
Definition mpz_mod (r n d : mpz_t) : run unit :=
  let* x := mpz_read n in let* y := mpz_read d in let* v := lift (Gmp.mpz_mod x y) in mpz_write r v.
Definition mpz_gcd (rop a b : mpz_t) : run unit :=
  let* x := mpz_read a in let* y := mpz_read b in mpz_write rop (Gmp.mpz_gcd x y).
Definition mpz_cmp (a b : mpz_t) : run Z :=
  let* x := mpz_read a in let* y := mpz_read b in ret (Gmp.mpz_cmp x y).

(** *** SlowMPInt.cpp *)

(** [SlowMPInt() : SlowMPInt(0)]. *)
Definition SlowMPInt_default : run mpz_t := SlowMPInt_of_int64 0.

Definition Slow_eq (this o : mpz_t) : run bool :=
  let* c := mpz_cmp this o in ret (c =? 0).
Definition Slow_ne (this o : mpz_t) : run bool :=
  let* c := mpz_cmp this o in ret (negb (c =? 0)).
Definition Slow_gt (this o : mpz_t) : run bool :=
  let* c := mpz_cmp this o in ret (c >? 0).
Definition Slow_lt (this o : mpz_t) : run bool :=
  let* c := mpz_cmp this o in ret (c <? 0).
Definition Slow_le (this o : mpz_t) : run bool :=
  let* c := mpz_cmp this o in ret (c <=? 0).
Definition Slow_ge (this o : mpz_t) : run bool :=
  let* c := mpz_cmp this o in ret (c >=? 0).

(** The comparisons with an [int64_t] construct a [SlowMPInt] from the
    word. *)
Definition Slow_eq_int (a : mpz_t) (b : Z) : run bool :=
  let* t := SlowMPInt_of_int64 b in Slow_eq a t.
Definition Slow_gt_int (a : mpz_t) (b : Z) : run bool :=
  let* t := SlowMPInt_of_int64 b in Slow_gt a t.
Definition Slow_lt_int (a : mpz_t) (b : Z) : run bool :=
  let* t := SlowMPInt_of_int64 b in Slow_lt a t.
Definition Slow_ge_int (a : mpz_t) (b : Z) : run bool :=
  let* t := SlowMPInt_of_int64 b in Slow_ge a t.

(** The arithmetic operators declare [SlowMPInt res], write it and return
    it. *)
Definition Slow_add (this o : mpz_t) : run mpz_t :=
  let* res := SlowMPInt_default in let* _ := mpz_add res this o in ret res.
Definition Slow_sub (this o : mpz_t) : run mpz_t :=
  let* res := SlowMPInt_default in let* _ := mpz_sub res this o in ret res.
Definition Slow_mul (this o : mpz_t) : run mpz_t :=
  let* res := SlowMPInt_default in let* _ := mpz_mul res this o in ret res.
Definition Slow_div (this o : mpz_t) : run mpz_t :=
  let* res := SlowMPInt_default in let* _ := mpz_tdiv_q res this o in ret res.
Definition Slow_rem (this o : mpz_t) : run mpz_t :=
  let* res := SlowMPInt_default in let* _ := mpz_mod res this o in ret res.
Definition Slow_neg (this : mpz_t) : run mpz_t :=
  let* res := SlowMPInt_default in let* _ := mpz_neg res this in ret res.

(** [x >= 0 ? x : -x]: the result is a copy of [x] or the value of [-x]. *)
Definition Slow_abs (x : mpz_t) : run mpz_t :=
  let* c := Slow_ge_int x 0 in if c then SlowMPInt_copy x else Slow_neg x.
Definition Slow_ceilDiv (lhs rhs : mpz_t) : run mpz_t :=
  let* c := Slow_eq_int rhs (-1) in
  if c then Slow_neg lhs
  else let* res := SlowMPInt_default in let* _ := mpz_cdiv_q res lhs rhs in ret res.
Definition Slow_floorDiv (lhs rhs : mpz_t) : run mpz_t :=
  let* c := Slow_eq_int rhs (-1) in
  if c then Slow_neg lhs
  else let* res := SlowMPInt_default in let* _ := mpz_fdiv_q res lhs rhs in ret res.
Definition Slow_mod (lhs rhs : mpz_t) : run mpz_t :=
  let* c := Slow_ge_int rhs 1 in let* _ := asserting c in
  let* r := Slow_rem lhs rhs in let* n := Slow_lt_int r 0 in
  if n then let* r1 := Slow_rem lhs rhs in Slow_add r1 rhs else Slow_rem lhs rhs.
Definition Slow_gcd (a b : mpz_t) : run mpz_t :=
  let* ca := Slow_ge_int a 0 in
  let* c := (if ca then Slow_ge_int b 0 else ret false) in
  let* _ := asserting c in
  let* res := SlowMPInt_default in let* _ := mpz_gcd res a b in ret res.

(** *** MPInt.h *)

Definition isSmall (x : MPInt) : bool :=
  match x with Small _ => true | Large _ => false end.
Definition isLarge (x : MPInt) : bool := negb (isSmall x).

(** [explicit operator SlowMPInt()]: [SlowMPInt(getSmall())] for a small
    value; [return getLarge()] copies the member. *)
Definition toSlow (x : MPInt) : run mpz_t :=
  match x with
  | Small v => SlowMPInt_of_int64 v
  | Large m => SlowMPInt_copy m
  end.

(** [MPInt(const SlowMPInt &val) : valLarge(val), holdsLarge(true)]. *)
Definition of_Slow (val : mpz_t) : run MPInt :=
  let* valLarge := SlowMPInt_copy val in ret (Large valLarge).

(** [initSmall]; the destructor it calls on a large value is the implicit
    one of [SlowMPInt], which does nothing. *)
Definition initSmall (this : MPInt) (o : Z) : run MPInt := ret (Small o).

(** [operator=(const MPInt &)]; the result is the new [*this]. *)
Definition assign (this o : MPInt) : run MPInt :=
  match o with
  | Small v => initSmall this v
  | Large m => initLarge this m
  end.
(** [operator=(int x)]: [x] is an [int]. *)
Definition int_in_range (x : Z) : Prop := -2147483648 <= x <= 2147483647.
Definition assign_int (this : MPInt) (x : Z) : run MPInt := initSmall this x.

(** [MPInt(f(SlowMPInt(x), SlowMPInt(o)))], the fallback of a binary
    operation [f].  The cast [SlowMPInt(x)] is the object that the
    conversion returns; the result of [f] is a returned local, of which no
    copy is made before the constructor of [MPInt] copies it. *)
Definition via_Slow (f : mpz_t -> mpz_t -> run mpz_t) (x o : MPInt) : run MPInt :=
  let* a := toSlow x in let* b := toSlow o in let* r := f a b in of_Slow r.

(** [operator>=(const MPInt &, int64_t)] and [operator>]. *)
Definition ge_int (a : MPInt) (b : Z) : run bool :=
  match a with
  | Small v => ret (v >=? b)
  | Large m => Slow_ge_int m b
  end.
Definition gt_int (a : MPInt) (b : Z) : run bool :=
  match a with
  | Small v => ret (v >? b)
  | Large m => Slow_gt_int m b
  end.

(** [operator==(const MPInt &)]. *)
Definition eq (x o : MPInt) : run bool :=
  match x, o with
  | Small a, Small b => ret (a =? b)
  | _, _ => let* a := toSlow x in let* b := toSlow o in Slow_eq a b
  end.

Definition add (cc : Compiler) (x o : MPInt) : run MPInt :=
  match x, o with
  | Small a, Small b =>
      let '(result, overflow) := detail.addOverflow cc a b in
      if negb overflow then ret (Small result) else via_Slow Slow_add x o
  | _, _ => via_Slow Slow_add x o
  end.
Definition sub (cc : Compiler) (x o : MPInt) : run MPInt :=
  match x, o with
  | Small a, Small b =>
      let '(result, overflow) := detail.subOverflow cc a b in
      if negb overflow then ret (Small result) else via_Slow Slow_sub x o
  | _, _ => via_Slow Slow_sub x o
  end.
Definition mul (cc : Compiler) (x o : MPInt) : run MPInt :=
  match x, o with
  | Small a, Small b =>
      let '(result, overflow) := detail.mulOverflow cc a b in
      if negb overflow then ret (Small result) else via_Slow Slow_mul x o
  | _, _ => via_Slow Slow_mul x o
  end.

(** Unary [operator-]. *)
Definition neg (x : MPInt) : run MPInt :=
  match x with
  | Small v =>
      if negb (v =? min_signed) then ret (Small (- v))
      else let* a := toSlow x in let* r := Slow_neg a in of_Slow r
  | Large _ => let* a := toSlow x in let* r := Slow_neg a in of_Slow r
  end.

Definition divByPositive (x o : MPInt) : run MPInt :=
  let* c := gt_int o 0 in let* _ := asserting c in
  match x, o with
  | Small a, Small b => lift (Small <$> sdiv a b)
  | _, _ => via_Slow Slow_div x o
  end.

(** [operator/]. *)
Definition div (x o : MPInt) : run MPInt :=
  match x, o with
  | Small a, Small b =>
      if detail.divWouldOverflow a b then neg x
      else lift (Small <$> sdiv a b)
  | _, _ => via_Slow Slow_div x o
  end.

(** [MPInt(x >= 0 ? x : -x)]: a copy of [x] or the value of [-x]. *)
Definition abs (x : MPInt) : run MPInt :=
  let* c := ge_int x 0 in if c then copy x else neg x.

Definition ceilDiv (lhs rhs : MPInt) : run MPInt :=
  match lhs, rhs with
  | Small a, Small b =>
      if detail.divWouldOverflow a b then neg lhs
      else lift (Small <$> math.ceilDiv a b)
  | _, _ => via_Slow Slow_ceilDiv lhs rhs
  end.
Definition floorDiv (lhs rhs : MPInt) : run MPInt :=
  match lhs, rhs with
  | Small a, Small b =>
      if detail.divWouldOverflow a b then neg lhs
      else lift (Small <$> math.floorDiv a b)
  | _, _ => via_Slow Slow_floorDiv lhs rhs
  end.
Definition mod_ (lhs rhs : MPInt) : run MPInt :=
  match lhs, rhs with
  | Small a, Small b => lift (Small <$> math.mod_ a b)
  | _, _ => via_Slow Slow_mod lhs rhs
  end.

Definition gcd (a b : MPInt) : run MPInt :=
  let* ca := ge_int a 0 in
  let* c := (if ca then ge_int b 0 else ret false) in
  let* _ := asserting c in
  match a, b with
  | Small x, Small y => lift (Small <$> std_gcd x y)
  | _, _ => via_Slow Slow_gcd a b
  end.

Definition lcm (cc : Compiler) (a b : MPInt) : run MPInt :=
  let* x := abs a in let* y := abs b in
  let* p := mul cc x y in let* g := gcd x y in div p g.

(** [operator%]. *)
Definition rem (x o : MPInt) : run MPInt :=
  match x, o with
  | Small a, Small b => lift (Small <$> srem a b)
  | _, _ => via_Slow Slow_rem x o
  end.

(** *** In-place forms: the result is the new [*this]. *)
Definition add_assign (cc : Compiler) (this o : MPInt) : run MPInt :=
  match this, o with
  | Small a, Small b =>
      let '(result, overflow) := detail.addOverflow cc a b in
      if negb overflow then ret (Small result)
      else let* r := via_Slow Slow_add this o in assign this r
  | _, _ => let* r := via_Slow Slow_add this o in assign this r
  end.
Definition sub_assign (cc : Compiler) (this o : MPInt) : run MPInt :=
  match this, o with
  | Small a, Small b =>
      let '(result, overflow) := detail.subOverflow cc a b in
      if negb overflow then ret (Small result)
      else let* r := via_Slow Slow_sub this o in assign this r
  | _, _ => let* r := via_Slow Slow_sub this o in assign this r
  end.
Definition mul_assign (cc : Compiler) (this o : MPInt) : run MPInt :=
  match this, o with
  | Small a, Small b =>
      let '(result, overflow) := detail.mulOverflow cc a b in
      if negb overflow then ret (Small result)
      else let* r := via_Slow Slow_mul this o in assign this r
  | _, _ => let* r := via_Slow Slow_mul this o in assign this r
  end.
Definition div_assign (this o : MPInt) : run MPInt :=
  match this, o with
  | Small a, Small b =>
      if detail.divWouldOverflow a b then let* r := neg this in assign this r
      else lift (Small <$> sdiv a b)
  | _, _ => let* r := via_Slow Slow_div this o in assign this r
  end.
Definition divByPositiveInPlace (this o : MPInt) : run MPInt :=
  let* c := gt_int o 0 in let* _ := asserting c in
  match this, o with
  | Small a, Small b => lift (Small <$> sdiv a b)
  | _, _ => let* r := via_Slow Slow_div this o in assign this r
  end.
Definition rem_assign (this o : MPInt) : run MPInt :=
  let* r := rem this o in assign this r.

(** *** The operations, by name *)

Definition binop_eval (cc : Compiler) (op : binop) (x o : MPInt) : run MPInt :=
  match op with
  | OpAdd => add cc x o
  | OpSub => sub cc x o
  | OpMul => mul cc x o
  | OpDiv => div x o
  | OpRem => rem x o
  | OpDivByPositive => divByPositive x o
  | OpCeilDiv => ceilDiv x o
  | OpFloorDiv => floorDiv x o
  | OpMod => mod_ x o
  | OpGcd => gcd x o
  | OpLcm => lcm cc x o
  end.

(** The operations that have an in-place form. *)
Inductive inplace : Type :=
  | IpAdd | IpSub | IpMul | IpDiv | IpRem | IpDivByPositive.

Definition inplace_eval (cc : Compiler) (op : inplace) (this o : MPInt) : run MPInt :=
  match op with
  | IpAdd => add_assign cc this o
  | IpSub => sub_assign cc this o
  | IpMul => mul_assign cc this o
  | IpDiv => div_assign this o
  | IpRem => rem_assign this o
  | IpDivByPositive => divByPositiveInPlace this o
  end.

End Dispatch.

(** ** The division conventions, in the specification's words

    What the exact quotient [a / b] rounded towards negative infinity,
    rounded towards positive infinity, and the Euclidean remainder are,
    without reference to the code. *)

Module Convention.

(** [q <= a / b < q + 1] over the rationals. *)
Definition rounds_toward_neg_inf (a b q : Z) : Prop :=
  (0 < b -> q * b <= a < (q + 1) * b) /\
  (b < 0 -> (q + 1) * b < a <= q * b).

(** [q - 1 < a / b <= q] over the rationals. *)
Definition rounds_toward_pos_inf (a b q : Z) : Prop :=
  (0 < b -> (q - 1) * b < a <= q * b) /\
  (b < 0 -> q * b <= a < (q - 1) * b).

(** [r] lies in [[0, b)] and is congruent to [a] modulo [b]. *)
Definition euclidean_remainder (a b r : Z) : Prop :=
  0 <= r < b /\ exists k, a - r = k * b.

End Convention.

(** * Proofs *)

Import Int64.

(** ** 64-bit words *)

Ltac unfold_int64 :=
  unfold in_range, fits, to_signed, to_unsigned, uadd, usub, umul, udiv,
    checked, sadd, ssub, sneg, sdiv, srem,
    modulus, half_modulus, min_signed, max_signed in *.

(** Case analysis on every integer comparison in sight. *)
Ltac cmp_cases :=
  repeat match goal with
  | |- context [?a <? ?b] => destruct (Z.ltb_spec a b)
  | |- context [?a <=? ?b] => destruct (Z.leb_spec a b)
  | |- context [?a >? ?b] => rewrite (Z.gtb_ltb a b)
  | |- context [?a >=? ?b] => rewrite (Z.geb_leb a b)
  | |- context [?a =? ?b] => destruct (Z.eqb_spec a b)
  end.

Ltac range_solve :=
  unfold in_range, min_signed, max_signed in *;
  Z.to_euclidean_division_equations; nia.

Lemma fits_in_range z : fits z = true <-> in_range z.
Proof. unfold_int64. rewrite andb_true_iff, !Z.leb_le. tauto. Qed.

Lemma fits_false z : fits z = false <-> ~ in_range z.
Proof. rewrite <- fits_in_range. destruct (fits z); intuition congruence. Qed.

Lemma to_signed_in_range z : in_range z -> to_signed z = z.
Proof.
  unfold_int64. intros Hz.
  assert (Hm : z mod 18446744073709551616 = z \/
               z mod 18446744073709551616 = z + 18446744073709551616).
  { Z.div_mod_to_equations. lia. }
  cmp_cases; lia.
Qed.

Lemma to_signed_range u : in_range (to_signed u).
Proof.
  unfold_int64.
  pose proof (Z.mod_pos_bound u 18446744073709551616 ltac:(lia)).
  cmp_cases; lia.
Qed.

Lemma to_signed_congr a b : a mod modulus = b mod modulus -> to_signed a = to_signed b.
Proof. unfold to_signed. intros ->. reflexivity. Qed.

Lemma checked_some z : in_range z -> checked z = Some z.
Proof. intros H. unfold checked. now rewrite (proj2 (fits_in_range z) H). Qed.

Lemma checked_in_range z q : checked z = Some q -> in_range q.
Proof.
  unfold checked. destruct (fits z) eqn:Hf; [|discriminate].
  intros [= <-]. now apply fits_in_range.
Qed.

Lemma sdiv_some a b : b <> 0 -> in_range (Z.quot a b) -> sdiv a b = Some (Z.quot a b).
Proof.
  intros Hb Hq. unfold sdiv. destruct (Z.eqb_spec b 0); [contradiction|].
  now apply checked_some.
Qed.

Lemma sdiv_in_range a b q : sdiv a b = Some q -> in_range q.
Proof. unfold sdiv. destruct (b =? 0); [discriminate|]. apply checked_in_range. Qed.

(** Truncating division of two [int64_t] apart from [INT64_MIN / -1]. *)
Lemma sdiv_spec a b :
  in_range a -> in_range b -> b <> 0 -> detail.divWouldOverflow a b = false ->
  sdiv a b = Some (Z.quot a b).
Proof.
  intros Ha Hb Hb0 Hd. unfold sdiv, checked.
  destruct (Z.eqb_spec b 0); [contradiction|].
  assert (Hf : fits (Z.quot a b) = true).
  { apply fits_in_range. unfold detail.divWouldOverflow in Hd.
    apply andb_false_iff in Hd. rewrite !Z.eqb_neq in Hd.
    unfold in_range, min_signed, max_signed in *.
    Z.to_euclidean_division_equations. nia. }
  now rewrite Hf.
Qed.

(** Truncating division by a positive [int64_t] stays in range. *)
Lemma sdiv_positive a b :
  in_range a -> in_range b -> 0 < b -> sdiv a b = Some (Z.quot a b).
Proof.
  intros Ha Hb Hpos. unfold sdiv, checked.
  destruct (Z.eqb_spec b 0); [lia|].
  assert (Hf : fits (Z.quot a b) = true).
  { apply fits_in_range. unfold in_range, min_signed, max_signed in *.
    Z.to_euclidean_division_equations. nia. }
  now rewrite Hf.
Qed.

Lemma srem_some a b : b <> 0 -> in_range (Z.quot a b) -> srem a b = Some (Z.rem a b).
Proof.
  intros Hb Hq. unfold srem. destruct (Z.eqb_spec b 0); [contradiction|].
  now rewrite (proj2 (fits_in_range _) Hq).
Qed.

Lemma srem_in_range a b r : in_range b -> srem a b = Some r -> in_range r.
Proof.
  intros Hb. unfold srem. destruct (Z.eqb_spec b 0); [discriminate|].
  destruct (fits (Z.quot a b)); [|discriminate]. intros [= <-].
  pose proof (Z.rem_bound_abs a b ltac:(assumption)).
  unfold in_range, min_signed, max_signed in *. lia.
Qed.

(** ** Math.h: the checked primitives

    The portable code computes what the intrinsics compute. *)

Lemma AddOverflow_builtin cc X Y :
  in_range X -> in_range Y -> math.AddOverflow cc X Y = builtin_add_overflow X Y.
Proof.
  intros HX HY. unfold math.AddOverflow, builtin_add_overflow.
  destruct (has_builtin_add_overflow cc); [reflexivity|].
  assert (HR : to_signed (uadd (to_unsigned X) (to_unsigned Y)) = to_signed (X + Y)).
  { apply to_signed_congr. unfold uadd, to_unsigned.
    rewrite Z.mod_mod by (unfold modulus; lia).
    rewrite <- Zplus_mod. reflexivity. }
  cbv zeta. rewrite HR. clear HR.
  destruct (fits (X + Y)) eqn:Hf.
  - apply fits_in_range in Hf. rewrite (to_signed_in_range _ Hf).
    unfold_int64. cmp_cases; simpl; try reflexivity; exfalso; lia.
  - apply fits_false in Hf.
    unfold_int64.
    cmp_cases; simpl; try reflexivity; exfalso; Z.div_mod_to_equations; lia.
Qed.

Lemma SubOverflow_builtin cc X Y :
  in_range X -> in_range Y -> math.SubOverflow cc X Y = builtin_sub_overflow X Y.
Proof.
  intros HX HY. unfold math.SubOverflow, builtin_sub_overflow.
  destruct (has_builtin_sub_overflow cc); [reflexivity|].
  assert (HR : to_signed (usub (to_unsigned X) (to_unsigned Y)) = to_signed (X - Y)).
  { apply to_signed_congr. unfold usub, to_unsigned.
    rewrite Z.mod_mod by (unfold modulus; lia).
    rewrite <- Zminus_mod. reflexivity. }
  cbv zeta. rewrite HR. clear HR.
  destruct (fits (X - Y)) eqn:Hf.
  - apply fits_in_range in Hf. rewrite (to_signed_in_range _ Hf).
    unfold_int64. cmp_cases; simpl; try reflexivity; exfalso; lia.
  - apply fits_false in Hf.
    unfold_int64.
    cmp_cases; simpl; try reflexivity; exfalso; Z.div_mod_to_equations; lia.
Qed.

(** The magnitude of an [int64_t], as [MulOverflow] computes it. *)
Lemma magnitude_unsigned X :
  in_range X ->
  (if X <? 0 then usub 0 (to_unsigned X) else to_unsigned X) = Z.abs X.
Proof.
  unfold_int64. intros HX.
  cmp_cases; Z.div_mod_to_equations; lia.
Qed.

Lemma div_lt_iff M a b : 0 < b -> (M / b < a <-> M < a * b).
Proof.
  intros Hb. split; intros H.
  - pose proof (Z.mul_succ_div_gt M b Hb). nia.
  - apply Z.div_lt_upper_bound; lia.
Qed.

Lemma MulOverflow_builtin X Y :
  in_range X -> in_range Y -> math.MulOverflow X Y = builtin_mul_overflow X Y.
Proof.
  intros HX HY. unfold math.MulOverflow, builtin_mul_overflow.
  rewrite (magnitude_unsigned X HX), (magnitude_unsigned Y HY).
  cbv zeta.
  assert (HR : to_signed (if xorb (X <? 0) (Y <? 0)
                          then usub 0 (umul (Z.abs X) (Z.abs Y))
                          else umul (Z.abs X) (Z.abs Y)) = to_signed (X * Y)).
  { apply to_signed_congr. unfold usub, umul.
    destruct (Z.ltb_spec X 0), (Z.ltb_spec Y 0); cbn [xorb];
      rewrite ?Zminus_mod_idemp_r, ?Z.mod_mod by (unfold modulus; lia);
      f_equal; nia. }
  rewrite HR. clear HR.
  replace (uadd (to_unsigned max_signed) 1) with 9223372036854775808 by reflexivity.
  replace (to_unsigned max_signed) with 9223372036854775807 by reflexivity.
  unfold udiv.
  destruct (Z.eqb_spec (Z.abs X) 0) as [HX0|HX0]; cbn [orb].
  { assert (X = 0) by lia. subst X. reflexivity. }
  destruct (Z.eqb_spec (Z.abs Y) 0) as [HY0|HY0].
  { assert (Y = 0) by lia. subst Y. rewrite Z.mul_0_r. reflexivity. }
  assert (HYpos : 0 < Z.abs Y) by lia.
  destruct (fits (X * Y)) eqn:Hf; cbn [negb].
  - apply fits_in_range in Hf. unfold in_range, min_signed, max_signed in *.
    destruct (Z.ltb_spec X 0), (Z.ltb_spec Y 0); cbn [xorb];
      f_equal; rewrite Z.gtb_ltb; apply Z.ltb_ge;
      apply Z.nlt_ge; rewrite div_lt_iff by assumption; nia.
  - apply fits_false in Hf. unfold in_range, min_signed, max_signed in *.
    destruct (Z.ltb_spec X 0), (Z.ltb_spec Y 0); cbn [xorb];
      f_equal; rewrite Z.gtb_ltb; apply Z.ltb_lt;
      rewrite div_lt_iff by assumption; nia.
Qed.

(** C9. For 64-bit [x] and [y], [MulOverflow] returns true exactly when the
    product [x * y] is not a 64-bit signed integer.  The flag is the
    comparison of the magnitude of [x] with the largest magnitude the sign
    of the result allows ([2^63] when the signs differ, [2^63 - 1]
    otherwise) divided by the magnitude of [y], unless a magnitude is zero;
    the stored result is the truncated product. *)
Theorem MulOverflow_iff_not_representable (x y : Z) :
  in_range x -> in_range y ->
  (snd (math.MulOverflow x y) = true <-> ~ in_range (x * y)) /\
  snd (math.MulOverflow x y) =
    negb ((Z.abs x =? 0) || (Z.abs y =? 0)) &&
    (Z.abs x >? (if xorb (x <? 0) (y <? 0)
                 then 9223372036854775808 else 9223372036854775807) / Z.abs y) /\
  fst (math.MulOverflow x y) = to_signed (x * y).
Proof.
  intros Hx Hy. split; [|split].
  - rewrite MulOverflow_builtin by assumption. cbn [snd builtin_mul_overflow].
    rewrite negb_true_iff. apply fits_false.
  - unfold math.MulOverflow.
    rewrite (magnitude_unsigned x Hx), (magnitude_unsigned y Hy). cbv zeta.
    replace (uadd (to_unsigned max_signed) 1) with 9223372036854775808 by reflexivity.
    replace (to_unsigned max_signed) with 9223372036854775807 by reflexivity.
    unfold udiv.
    destruct ((Z.abs x =? 0) || (Z.abs y =? 0)); cbn [negb andb snd]; [reflexivity|].
    destruct (xorb (x <? 0) (y <? 0)); reflexivity.
  - rewrite MulOverflow_builtin by assumption. reflexivity.
Qed.

Lemma MulOverflow_iff_not_representable_witness :
  in_range (-4294967296) /\ in_range 2147483649 /\
  ((snd (math.MulOverflow (-4294967296) 2147483649) = true <->
    ~ in_range (-4294967296 * 2147483649)) /\
   snd (math.MulOverflow (-4294967296) 2147483649) =
     negb ((Z.abs (-4294967296) =? 0) || (Z.abs 2147483649 =? 0)) &&
     (Z.abs (-4294967296) >?
        (if xorb (-4294967296 <? 0) (2147483649 <? 0)
         then 9223372036854775808 else 9223372036854775807) / Z.abs 2147483649) /\
   fst (math.MulOverflow (-4294967296) 2147483649) =
     to_signed (-4294967296 * 2147483649)).
Proof.
  assert (H1 : in_range (-4294967296)) by (unfold in_range, min_signed, max_signed; lia).
  assert (H2 : in_range 2147483649) by (unfold in_range, min_signed, max_signed; lia).
  split; [exact H1 | split; [exact H2 |]].
  exact (MulOverflow_iff_not_representable (-4294967296) 2147483649 H1 H2).
Defined.

(** ** Math.h: the division helpers *)

Lemma floorDiv_spec a b :
  in_range a -> in_range b -> b <> 0 -> (a <> min_signed \/ b < -1) ->
  math.floorDiv a b = Some (a / b).
Proof.
  intros Ha Hb Hb0 Hex. unfold math.floorDiv.
  destruct (Z.eqb_spec b 0); [contradiction|].
  destruct (Z.eqb_spec a 0) as [->|Ha0]; cbn [negb andb].
  { rewrite sdiv_some by (try assumption; rewrite Z.quot_0_l by assumption; range_solve).
    rewrite Z.quot_0_l, Z.div_0_l by assumption. reflexivity. }
  destruct (Z.ltb_spec a 0), (Z.ltb_spec b 0); cbn [Bool.eqb negb].
  - rewrite sdiv_some by (try assumption; range_solve).
    f_equal. Z.to_euclidean_division_equations. nia.
  - unfold sneg, sadd, ssub.
    rewrite (checked_some (- a)) by range_solve. cbn [mbind option_bind].
    rewrite (checked_some (- a + -1)) by range_solve. cbn [mbind option_bind].
    rewrite sdiv_some by (try assumption; range_solve). cbn [mbind option_bind].
    rewrite (checked_some (- _)) by range_solve. cbn [mbind option_bind].
    rewrite checked_some by range_solve.
    f_equal. Z.to_euclidean_division_equations. nia.
  - unfold sneg, sadd, ssub.
    rewrite (checked_some (- a)) by range_solve. cbn [mbind option_bind].
    rewrite (checked_some (- a + 1)) by range_solve. cbn [mbind option_bind].
    rewrite sdiv_some by (try assumption; range_solve). cbn [mbind option_bind].
    rewrite (checked_some (- _)) by range_solve. cbn [mbind option_bind].
    rewrite checked_some by range_solve.
    f_equal. Z.to_euclidean_division_equations. nia.
  - rewrite sdiv_some by (try assumption; range_solve).
    f_equal. Z.to_euclidean_division_equations. nia.
Qed.

Lemma ceilDiv_spec a b :
  in_range a -> in_range b -> b <> 0 -> (a <> min_signed \/ b < -1) ->
  math.ceilDiv a b = Some (- ((- a) / b)).
Proof.
  intros Ha Hb Hb0 Hex. unfold math.ceilDiv.
  destruct (Z.eqb_spec b 0); [contradiction|].
  destruct (Z.eqb_spec a 0) as [->|Ha0]; cbn [negb andb].
  { unfold sneg. rewrite (checked_some (- 0)) by range_solve. cbn [mbind option_bind].
    rewrite sdiv_some by (try assumption; cbn; rewrite Z.quot_0_l by assumption; range_solve).
    cbn [mbind option_bind]. cbn [Z.opp].
    rewrite Z.quot_0_l, Z.div_0_l by assumption. reflexivity. }
  rewrite !Z.gtb_ltb.
  destruct (Z.ltb_spec 0 a), (Z.ltb_spec 0 b); cbn [Bool.eqb].
  - unfold sadd.
    rewrite (checked_some (a + -1)) by range_solve. cbn [mbind option_bind].
    rewrite sdiv_some by (try assumption; range_solve). cbn [mbind option_bind].
    rewrite checked_some by range_solve.
    f_equal. Z.to_euclidean_division_equations. nia.
  - unfold sneg.
    rewrite (checked_some (- a)) by range_solve. cbn [mbind option_bind].
    rewrite sdiv_some by (try assumption; range_solve). cbn [mbind option_bind].
    rewrite checked_some by range_solve.
    f_equal. Z.to_euclidean_division_equations. nia.
  - unfold sneg.
    rewrite (checked_some (- a)) by range_solve. cbn [mbind option_bind].
    rewrite sdiv_some by (try assumption; range_solve). cbn [mbind option_bind].
    rewrite checked_some by range_solve.
    f_equal. Z.to_euclidean_division_equations. nia.
  - unfold sadd.
    rewrite (checked_some (a + 1)) by range_solve. cbn [mbind option_bind].
    rewrite sdiv_some by (try assumption; range_solve). cbn [mbind option_bind].
    rewrite checked_some by range_solve.
    f_equal. Z.to_euclidean_division_equations. nia.
Qed.

Lemma mod_spec a b :
  in_range a -> in_range b -> 0 < b -> math.mod_ a b = Some (a mod b).
Proof.
  intros Ha Hb Hpos. unfold math.mod_.
  rewrite Z.geb_leb. destruct (Z.leb_spec 1 b); [|lia]. cbn [negb].
  rewrite srem_some by (try lia; range_solve). cbn [mbind option_bind].
  destruct (Z.ltb_spec (Z.rem a b) 0).
  - unfold sadd. rewrite checked_some by range_solve.
    pose proof (Z.rem_bound_abs a b ltac:(lia)) as Hr.
    f_equal. apply (Z.mod_unique_pos a b (Z.quot a b - 1)).
    + lia.
    + pose proof (Z.quot_rem' a b). lia.
  - pose proof (Z.rem_bound_abs a b ltac:(lia)) as Hr.
    f_equal. apply (Z.mod_unique_pos a b (Z.quot a b)).
    + lia.
    + apply Z.quot_rem'.
Qed.

Lemma div_rounds_toward_neg_inf a b :
  b <> 0 -> Convention.rounds_toward_neg_inf a b (a / b).
Proof.
  intros Hb. unfold Convention.rounds_toward_neg_inf.
  split; intros; Z.to_euclidean_division_equations; nia.
Qed.

Lemma opp_div_rounds_toward_pos_inf a b :
  b <> 0 -> Convention.rounds_toward_pos_inf a b (- ((- a) / b)).
Proof.
  intros Hb. unfold Convention.rounds_toward_pos_inf.
  split; intros; Z.to_euclidean_division_equations; nia.
Qed.

Lemma mod_euclidean_remainder a b :
  0 < b -> Convention.euclidean_remainder a b (a mod b).
Proof.
  intros Hb. unfold Convention.euclidean_remainder. split.
  - apply Z.mod_pos_bound. assumption.
  - exists (a / b). Z.to_euclidean_division_equations. nia.
Qed.

(** C6, as amended.  For a 64-bit dividend [a] and a non-zero 64-bit
    divisor [b], with [a] other than [INT64_MIN] or [b < -1], [floorDiv]
    returns the exact quotient rounded towards negative infinity and
    [ceilDiv] returns it rounded towards positive infinity; and for every
    64-bit [a] and every [b > 0], [mod] returns the remainder in [[0, b)]
    congruent to [a] modulo [b]. *)
Theorem floorDiv_ceilDiv_mod_rounding (a b : Z) :
  in_range a -> in_range b ->
  (b <> 0 -> a <> min_signed \/ b < -1 ->
     math.floorDiv a b = Some (a / b) /\
     Convention.rounds_toward_neg_inf a b (a / b) /\
     math.ceilDiv a b = Some (- ((- a) / b)) /\
     Convention.rounds_toward_pos_inf a b (- ((- a) / b))) /\
  (0 < b ->
     math.mod_ a b = Some (a mod b) /\
     Convention.euclidean_remainder a b (a mod b)).
Proof.
  intros Ha Hb. split.
  - intros Hb0 Hex. split; [|split; [|split]].
    + now apply floorDiv_spec.
    + now apply div_rounds_toward_neg_inf.
    + now apply ceilDiv_spec.
    + now apply opp_div_rounds_toward_pos_inf.
  - intros Hpos. split.
    + now apply mod_spec.
    + now apply mod_euclidean_remainder.
Qed.

Lemma floorDiv_ceilDiv_mod_rounding_witness :
  (in_range (-7) /\ in_range 2 /\
   math.floorDiv (-7) 2 = Some (-4) /\ math.ceilDiv (-7) 2 = Some (-3) /\
   math.mod_ (-7) 2 = Some 1) /\
  (in_range 7 /\ in_range (-2) /\
   math.floorDiv 7 (-2) = Some (-4) /\ math.ceilDiv 7 (-2) = Some (-3)) /\
  (in_range min_signed /\ in_range 3 /\
   math.mod_ min_signed 3 = Some 1).
Proof.
  assert (R : forall z, -9223372036854775808 <= z <= 9223372036854775807 -> in_range z)
    by (intros z Hz; exact Hz).
  assert (H1 : in_range (-7)) by (apply R; lia).
  assert (H2 : in_range 2) by (apply R; lia).
  assert (H3 : in_range 7) by (apply R; lia).
  assert (H4 : in_range (-2)) by (apply R; lia).
  assert (H5 : in_range min_signed) by (apply R; unfold min_signed; lia).
  assert (H6 : in_range 3) by (apply R; lia).
  split; [|split].
  - destruct (floorDiv_ceilDiv_mod_rounding (-7) 2 H1 H2) as [Hq Hm].
    destruct Hq as (Hf & _ & Hc & _); [lia | left; unfold min_signed; lia |].
    destruct Hm as (Hm & _); [lia|].
    split; [exact H1 | split; [exact H2 | split; [exact Hf | split; [exact Hc | exact Hm]]]].
  - destruct (floorDiv_ceilDiv_mod_rounding 7 (-2) H3 H4) as [Hq _].
    destruct Hq as (Hf & _ & Hc & _); [lia | left; unfold min_signed; lia |].
    split; [exact H3 | split; [exact H4 | split; [exact Hf | exact Hc]]].
  - destruct (floorDiv_ceilDiv_mod_rounding min_signed 3 H5 H6) as [_ Hm].
    destruct Hm as (Hm & _); [lia|].
    split; [exact H5 | split; [exact H6 | exact Hm]].
Defined.

(** C6 as stated fails at [a = INT64_MIN], [b = -1]: the exact quotient
    [2^63] is not a 64-bit value, so no result can be the rounded
    quotient, and [floorDiv] and [ceilDiv] have none. *)
Lemma floorDiv_ceilDiv_min_minus_one :
  in_range min_signed /\ in_range (-1) /\ -1 <> 0 /\
  math.floorDiv min_signed (-1) = None /\
  math.ceilDiv min_signed (-1) = None /\
  (forall q, Convention.rounds_toward_neg_inf min_signed (-1) q -> ~ in_range q) /\
  (forall q, Convention.rounds_toward_pos_inf min_signed (-1) q -> ~ in_range q).
Proof.
  repeat split; try (unfold min_signed, max_signed; lia); try reflexivity.
  - unfold Convention.rounds_toward_neg_inf, in_range, min_signed, max_signed in *. lia.
  - unfold Convention.rounds_toward_pos_inf, in_range, min_signed, max_signed in *. lia.
Qed.

Lemma ceilDiv_in_range a b q : math.ceilDiv a b = Some q -> in_range q.
Proof.
  unfold math.ceilDiv. destruct (b =? 0); [discriminate|].
  destruct (negb (a =? 0) && Bool.eqb (a >? 0) (b >? 0)).
  - destruct (sadd a (if b >? 0 then -1 else 1)) as [t|]; [|discriminate].
    cbn [mbind option_bind]. destruct (sdiv t b) as [q'|]; [|discriminate].
    cbn [mbind option_bind]. apply checked_in_range.
  - destruct (sneg a) as [n|]; [|discriminate].
    cbn [mbind option_bind]. destruct (sdiv n b) as [q'|]; [|discriminate].
    cbn [mbind option_bind]. apply checked_in_range.
Qed.

Lemma floorDiv_in_range a b q : math.floorDiv a b = Some q -> in_range q.
Proof.
  unfold math.floorDiv. destruct (b =? 0); [discriminate|].
  destruct (negb (a =? 0) && negb (Bool.eqb (a <? 0) (b <? 0))).
  - destruct (sneg a) as [n|]; [|discriminate]. cbn [mbind option_bind].
    destruct (sadd n (if b <? 0 then 1 else -1)) as [t|]; [|discriminate].
    cbn [mbind option_bind]. destruct (sdiv t b) as [q'|]; [|discriminate].
    cbn [mbind option_bind]. destruct (sneg q') as [m|]; [|discriminate].
    cbn [mbind option_bind]. apply checked_in_range.
  - apply sdiv_in_range.
Qed.

Lemma mod_in_range a b r : in_range b -> math.mod_ a b = Some r -> in_range r.
Proof.
  intros Hb. unfold math.mod_. destruct (negb (b >=? 1)); [discriminate|].
  destruct (srem a b) as [r0|] eqn:Hr; [|discriminate]. cbn [mbind option_bind].
  destruct (r0 <? 0).
  - cbn [mbind option_bind]. apply checked_in_range.
  - intros [= <-]. now apply (srem_in_range a b).
Qed.

Lemma std_gcd_in_range x y g : std_gcd x y = Some g -> in_range g.
Proof.
  unfold std_gcd.
  destruct (fits (Z.abs x)) eqn:Hx; [|discriminate].
  destruct (fits (Z.abs y)) eqn:Hy; [|discriminate].
  cbn. intros [= <-].
  apply fits_in_range in Hx, Hy.
  pose proof (Z.gcd_nonneg x y).
  assert (Z.gcd x y <= Z.max (Z.abs x) (Z.abs y)).
  { destruct (Z.eq_dec x 0) as [->|Hx0].
    - rewrite Z.gcd_0_l. lia.
    - pose proof (Z.gcd_divide_l x y) as Hd.
      apply Z.divide_abs_r in Hd.
      apply Z.divide_pos_le in Hd; lia. }
  unfold in_range, min_signed, max_signed in *. lia.
Qed.

(** ** SlowMPInt *)

Ltac unfold_slow :=
  unfold MP.toSlow, Slow.add, Slow.sub, Slow.mul, Slow.neg, Slow.div, Slow.rem,
    Slow.of_int64, Gmp.mpz_add, Gmp.mpz_sub, Gmp.mpz_mul, Gmp.mpz_neg,
    Gmp.mpz_tdiv_q, Gmp.mpz_mod, Gmp.mpz_gcd, Gmp.mpz_set_si in *;
  cbn [val] in *.

(** [mpz_cmp] read as the comparison of the integers held. *)
Lemma Slow_eq_spec a b : Slow.eq a b = (val a =? val b).
Proof.
  unfold Slow.eq, Gmp.mpz_cmp.
  destruct (Z.compare_spec (val a) (val b)), (Z.eqb_spec (val a) (val b));
    try reflexivity; lia.
Qed.

Lemma Slow_gt_spec a b : Slow.gt a b = (val a >? val b).
Proof.
  unfold Slow.gt, Gmp.mpz_cmp, Z.gtb.
  destruct (val a ?= val b); reflexivity.
Qed.

Lemma Slow_ge_spec a b : Slow.ge a b = (val a >=? val b).
Proof.
  unfold Slow.ge, Gmp.mpz_cmp, Z.geb.
  destruct (val a ?= val b); reflexivity.
Qed.

Lemma Slow_lt_spec a b : Slow.lt a b = (val a <? val b).
Proof.
  unfold Slow.lt, Gmp.mpz_cmp, Z.ltb.
  destruct (val a ?= val b); reflexivity.
Qed.

(** ** MPInt: the operations in closed form *)

Lemma addOverflow_builtin cc x y :
  in_range x -> in_range y -> detail.addOverflow cc x y = builtin_add_overflow x y.
Proof.
  intros. unfold detail.addOverflow.
  destruct (has_builtin_add_overflow cc); [reflexivity | now apply AddOverflow_builtin].
Qed.

Lemma subOverflow_builtin cc x y :
  in_range x -> in_range y -> detail.subOverflow cc x y = builtin_sub_overflow x y.
Proof.
  intros. unfold detail.subOverflow.
  destruct (has_builtin_sub_overflow cc); [reflexivity | now apply SubOverflow_builtin].
Qed.

Lemma mulOverflow_builtin cc x y :
  in_range x -> in_range y -> detail.mulOverflow cc x y = builtin_mul_overflow x y.
Proof.
  intros. unfold detail.mulOverflow.
  destruct (has_builtin_mul_overflow cc); [reflexivity | now apply MulOverflow_builtin].
Qed.

(** What the three checked operators return on two small operands. *)
Lemma add_small cc a b :
  in_range a -> in_range b ->
  MP.add cc (Small a) (Small b) =
    if fits (a + b) then Small (a + b) else Large (mkSlow (a + b)).
Proof.
  intros Ha Hb. unfold MP.add. rewrite addOverflow_builtin by assumption.
  unfold builtin_add_overflow. destruct (fits (a + b)) eqn:Hf; cbn.
  - apply fits_in_range in Hf. now rewrite to_signed_in_range.
  - reflexivity.
Qed.

Lemma sub_small cc a b :
  in_range a -> in_range b ->
  MP.sub cc (Small a) (Small b) =
    if fits (a - b) then Small (a - b) else Large (mkSlow (a - b)).
Proof.
  intros Ha Hb. unfold MP.sub. rewrite subOverflow_builtin by assumption.
  unfold builtin_sub_overflow. destruct (fits (a - b)) eqn:Hf; cbn.
  - apply fits_in_range in Hf. now rewrite to_signed_in_range.
  - reflexivity.
Qed.

Lemma mul_small cc a b :
  in_range a -> in_range b ->
  MP.mul cc (Small a) (Small b) =
    if fits (a * b) then Small (a * b) else Large (mkSlow (a * b)).
Proof.
  intros Ha Hb. unfold MP.mul. rewrite mulOverflow_builtin by assumption.
  unfold builtin_mul_overflow. destruct (fits (a * b)) eqn:Hf; cbn.
  - apply fits_in_range in Hf. now rewrite to_signed_in_range.
  - reflexivity.
Qed.

Lemma gt_int_0 o : MP.gt_int o 0 = true <-> 0 < MP.value o.
Proof.
  destruct o as [v|s]; cbn [MP.gt_int MP.value].
  - rewrite Z.gtb_ltb. apply Z.ltb_lt.
  - rewrite Slow_gt_spec. cbn. rewrite Z.gtb_ltb. apply Z.ltb_lt.
Qed.

Lemma ge_int_0 o : MP.ge_int o 0 = true <-> 0 <= MP.value o.
Proof.
  destruct o as [v|s]; cbn [MP.ge_int MP.value].
  - rewrite Z.geb_leb. apply Z.leb_le.
  - rewrite Slow_ge_spec. cbn. rewrite Z.geb_leb. apply Z.leb_le.
Qed.

Lemma add_spec cc x o :
  MP.wf x -> MP.wf o ->
  MP.add cc x o =
    if MP.isSmall x && MP.isSmall o && fits (MP.value x + MP.value o)
    then Small (MP.value x + MP.value o)
    else Large (mkSlow (MP.value x + MP.value o)).
Proof.
  intros Hx Ho.
  destruct x as [a|s], o as [b|t]; cbn [MP.wf MP.isSmall MP.value andb] in *;
    [rewrite add_small by assumption; reflexivity | ..];
    unfold MP.add; unfold_slow; reflexivity.
Qed.

Lemma sub_spec cc x o :
  MP.wf x -> MP.wf o ->
  MP.sub cc x o =
    if MP.isSmall x && MP.isSmall o && fits (MP.value x - MP.value o)
    then Small (MP.value x - MP.value o)
    else Large (mkSlow (MP.value x - MP.value o)).
Proof.
  intros Hx Ho.
  destruct x as [a|s], o as [b|t]; cbn [MP.wf MP.isSmall MP.value andb] in *;
    [rewrite sub_small by assumption; reflexivity | ..];
    unfold MP.sub; unfold_slow; reflexivity.
Qed.

Lemma mul_spec cc x o :
  MP.wf x -> MP.wf o ->
  MP.mul cc x o =
    if MP.isSmall x && MP.isSmall o && fits (MP.value x * MP.value o)
    then Small (MP.value x * MP.value o)
    else Large (mkSlow (MP.value x * MP.value o)).
Proof.
  intros Hx Ho.
  destruct x as [a|s], o as [b|t]; cbn [MP.wf MP.isSmall MP.value andb] in *;
    [rewrite mul_small by assumption; reflexivity | ..];
    unfold MP.mul; unfold_slow; reflexivity.
Qed.

Lemma neg_spec x :
  MP.neg x =
    if MP.isSmall x && negb (MP.value x =? min_signed)
    then Small (- MP.value x)
    else Large (mkSlow (- MP.value x)).
Proof.
  destruct x as [a|s]; cbn.
  - destruct (a =? min_signed); reflexivity.
  - reflexivity.
Qed.

Lemma abs_spec x :
  MP.abs x =
    if MP.isSmall x && negb (MP.value x =? min_signed)
    then Small (Z.abs (MP.value x))
    else Large (mkSlow (Z.abs (MP.value x))).
Proof.
  unfold MP.abs. destruct (MP.ge_int x 0) eqn:Hge.
  - apply ge_int_0 in Hge. destruct x as [a|[v]]; cbn in *.
    + destruct (Z.eqb_spec a min_signed) as [->|_]; [unfold min_signed in Hge; lia|].
      cbn. now rewrite Z.abs_eq.
    + now rewrite Z.abs_eq.
  - assert (Hlt : MP.value x < 0).
    { destruct (Z.lt_ge_cases (MP.value x) 0) as [|H]; [assumption|].
      apply ge_int_0 in H. congruence. }
    rewrite neg_spec. rewrite Z.abs_neq by lia. reflexivity.
Qed.

Lemma div_spec x o :
  MP.wf x -> MP.wf o -> MP.value o <> 0 ->
  MP.div x o =
    Some (if MP.isSmall x && MP.isSmall o
             && negb (detail.divWouldOverflow (MP.value x) (MP.value o))
          then Small (Z.quot (MP.value x) (MP.value o))
          else Large (mkSlow (Z.quot (MP.value x) (MP.value o)))).
Proof.
  intros Hx Ho H0. destruct x as [a|s], o as [b|t]; cbn in *.
  - destruct (detail.divWouldOverflow a b) eqn:Hd; cbn.
    + unfold detail.divWouldOverflow in Hd. apply andb_true_iff in Hd.
      rewrite !Z.eqb_eq in Hd. destruct Hd as [-> ->]. reflexivity.
    + now rewrite sdiv_spec.
  - unfold_slow. destruct (Z.eqb_spec (val t) 0); [contradiction|]. reflexivity.
  - unfold_slow. destruct (Z.eqb_spec b 0); [contradiction|]. reflexivity.
  - unfold_slow. destruct (Z.eqb_spec (val t) 0); [contradiction|]. reflexivity.
Qed.

(** [%] on two small operands is the remainder of the truncating division;
    on the promoted operands it is [mpz_mod]'s non-negative remainder. *)
Lemma rem_small a b :
  in_range a -> in_range b -> b <> 0 -> ~ (a = min_signed /\ b = -1) ->
  MP.rem (Small a) (Small b) = Some (Small (Z.rem a b)).
Proof.
  intros Ha Hb Hb0 Hex. unfold MP.rem.
  rewrite srem_some; [reflexivity | assumption |].
  unfold in_range, min_signed, max_signed in *.
  Z.to_euclidean_division_equations. nia.
Qed.

Lemma rem_promoted a b :
  b <> 0 ->
  MP.rem (Large (MP.toSlow (Small a))) (Large (MP.toSlow (Small b)))
    = Some (Large (mkSlow (a mod Z.abs b))).
Proof.
  intros Hb0. unfold MP.rem. unfold_slow.
  destruct (Z.eqb_spec b 0); [contradiction|]. reflexivity.
Qed.

(** ** MPInt: the invariant of the small representation

    Every result of a binary operation on well-formed operands is
    well-formed: a small result holds a 64-bit value. *)

Lemma fmap_Small_wf (m : option Z) r :
  (forall q, m = Some q -> in_range q) -> Small <$> m = Some r -> MP.wf r.
Proof. intros Hm. destruct m; cbn; intros [= <-]. cbn. now apply Hm. Qed.

Lemma fmap_Large_wf (m : option SlowMPInt) r : Large <$> m = Some r -> MP.wf r.
Proof. destruct m; cbn; intros [= <-]. exact I. Qed.

Lemma neg_wf x : MP.wf x -> MP.wf (MP.neg x).
Proof.
  intros Hx. rewrite neg_spec. destruct x as [a|s]; cbn in *; [|exact I].
  destruct (Z.eqb_spec a min_signed); cbn; [exact I|].
  unfold in_range, min_signed, max_signed in *. lia.
Qed.

Lemma abs_wf x : MP.wf x -> MP.wf (MP.abs x).
Proof.
  intros Hx. rewrite abs_spec. destruct x as [a|s]; cbn in *; [|exact I].
  destruct (Z.eqb_spec a min_signed); cbn; [exact I|].
  unfold in_range, min_signed, max_signed in *. lia.
Qed.

Lemma add_wf cc x o : MP.wf x -> MP.wf o -> MP.wf (MP.add cc x o).
Proof.
  intros Hx Ho. rewrite add_spec by assumption.
  destruct (MP.isSmall x && MP.isSmall o); cbn; [|exact I].
  destruct (fits (MP.value x + MP.value o)) eqn:Hf; cbn; [|exact I].
  now apply fits_in_range.
Qed.

Lemma sub_wf cc x o : MP.wf x -> MP.wf o -> MP.wf (MP.sub cc x o).
Proof.
  intros Hx Ho. rewrite sub_spec by assumption.
  destruct (MP.isSmall x && MP.isSmall o); cbn; [|exact I].
  destruct (fits (MP.value x - MP.value o)) eqn:Hf; cbn; [|exact I].
  now apply fits_in_range.
Qed.

Lemma mul_wf cc x o : MP.wf x -> MP.wf o -> MP.wf (MP.mul cc x o).
Proof.
  intros Hx Ho. rewrite mul_spec by assumption.
  destruct (MP.isSmall x && MP.isSmall o) eqn:Hs; cbn; [|exact I].
  destruct (fits (MP.value x * MP.value o)) eqn:Hf; cbn; [|exact I].
  now apply fits_in_range.
Qed.

Lemma div_wf x o r : MP.wf x -> MP.wf o -> MP.div x o = Some r -> MP.wf r.
Proof.
  intros Hx Ho. unfold MP.div.
  destruct x as [a|s], o as [b|t]; try apply fmap_Large_wf.
  destruct (detail.divWouldOverflow a b).
  - intros [= <-]. now apply (neg_wf (Small a)).
  - apply fmap_Small_wf. intros q. apply sdiv_in_range.
Qed.

Lemma gcd_wf a b g : MP.gcd a b = Some g -> MP.wf g.
Proof.
  unfold MP.gcd. destruct (negb (MP.ge_int a 0 && MP.ge_int b 0)); [discriminate|].
  destruct a as [x|s], b as [y|t]; try apply fmap_Large_wf.
  apply fmap_Small_wf. intros q. apply std_gcd_in_range.
Qed.

Lemma binop_eval_wf cc op x o r :
  MP.wf x -> MP.wf o -> binop_eval cc op x o = Some r -> MP.wf r.
Proof.
  intros Hx Ho. destruct op; cbn [binop_eval].
  - intros [= <-]. now apply add_wf.
  - intros [= <-]. now apply sub_wf.
  - intros [= <-]. now apply mul_wf.
  - now apply div_wf.
  - unfold MP.rem. destruct x as [a|s], o as [b|t]; try apply fmap_Large_wf.
    apply fmap_Small_wf. intros q. now apply srem_in_range.
  - unfold MP.divByPositive. destruct (negb (MP.gt_int o 0)); [discriminate|].
    destruct x as [a|s], o as [b|t]; try apply fmap_Large_wf.
    apply fmap_Small_wf. intros q. apply sdiv_in_range.
  - unfold MP.ceilDiv. destruct x as [a|s], o as [b|t]; try apply fmap_Large_wf.
    destruct (detail.divWouldOverflow a b).
    + intros [= <-]. now apply (neg_wf (Small a)).
    + apply fmap_Small_wf. intros q. apply ceilDiv_in_range.
  - unfold MP.floorDiv. destruct x as [a|s], o as [b|t]; try apply fmap_Large_wf.
    destruct (detail.divWouldOverflow a b).
    + intros [= <-]. now apply (neg_wf (Small a)).
    + apply fmap_Small_wf. intros q. apply floorDiv_in_range.
  - unfold MP.mod_. destruct x as [a|s], o as [b|t]; try apply fmap_Large_wf.
    apply fmap_Small_wf. intros q. now apply mod_in_range.
  - apply gcd_wf.
  - unfold MP.lcm.
    destruct (MP.gcd (MP.abs x) (MP.abs o)) as [g|] eqn:Hg; [|discriminate].
    cbn [mbind option_bind]. apply div_wf.
    + apply mul_wf; now apply abs_wf.
    + now apply gcd_wf in Hg.
Qed.

(** ** MPInt: division by a divisor known to be positive *)



(** ** MPInt: the fast path against the fallback *)

(** On two small operands, [+ - * /] hold the same number as the fallback
    [MPInt(SlowMPInt(x) op SlowMPInt(o))] on the promoted operands. *)
Lemma fast_fallback_agree cc op a b :
  In op [OpAdd; OpSub; OpMul; OpDiv] ->
  in_range a -> in_range b -> (op = OpDiv -> b <> 0) ->
  exists r r',
    binop_eval cc op (Small a) (Small b) = Some r /\
    binop_eval cc op (Large (MP.toSlow (Small a))) (Large (MP.toSlow (Small b))) = Some r' /\
    MP.value r = MP.value r'.
Proof.
  intros Hop Ha Hb Hb0.
  destruct Hop as [<-|[<-|[<-|[<-|[]]]]]; cbn [binop_eval].
  - do 2 eexists. split; [reflexivity|]. split; [reflexivity|].
    rewrite !add_spec by (cbn; trivial). cbn.
    destruct (fits (a + b)); reflexivity.
  - do 2 eexists. split; [reflexivity|]. split; [reflexivity|].
    rewrite !sub_spec by (cbn; trivial). cbn.
    destruct (fits (a - b)); reflexivity.
  - do 2 eexists. split; [reflexivity|]. split; [reflexivity|].
    rewrite !mul_spec by (cbn; trivial). cbn.
    destruct (fits (a * b)); reflexivity.
  - specialize (Hb0 eq_refl).
    rewrite !div_spec by (cbn; trivial).
    do 2 eexists. split; [reflexivity|]. split; [reflexivity|].
    cbn. destruct (detail.divWouldOverflow a b); reflexivity.
Qed.

(** C1 at [a = -7], [b = 2]: the small operands give [-7 % 2 = -1], the
    promoted operands give [1]. *)
Theorem rem_fast_fallback_differ :
  in_range (-7) /\ in_range 2 /\
  MP.rem (Small (-7)) (Small 2) = Some (Small (-1)) /\
  MP.rem (Large (MP.toSlow (Small (-7)))) (Large (MP.toSlow (Small 2)))
    = Some (Large (mkSlow 1)) /\
  Large <$> Slow.rem (Slow.of_int64 (-7)) (Slow.of_int64 2) = Some (Large (mkSlow 1)) /\
  MP.eq (Small (-1)) (Large (mkSlow 1)) = false.
Proof.
  repeat split; unfold min_signed, max_signed; lia.
Qed.

(** The two paths of [%] agree exactly when the truncating remainder is
    not negative. *)
Lemma rem_fast_fallback_iff a b :
  in_range a -> in_range b -> b <> 0 -> ~ (a = min_signed /\ b = -1) ->
  exists r r',
    MP.rem (Small a) (Small b) = Some r /\
    MP.rem (Large (MP.toSlow (Small a))) (Large (MP.toSlow (Small b))) = Some r' /\
    (MP.value r = MP.value r' <-> 0 <= Z.rem a b).
Proof.
  intros Ha Hb Hb0 Hex.
  rewrite rem_small, rem_promoted by assumption.
  do 2 eexists. split; [reflexivity|]. split; [reflexivity|]. cbn.
  pose proof (Z.mod_pos_bound a (Z.abs b) ltac:(lia)) as Hm.
  pose proof (Z.rem_bound_abs a b Hb0) as Hr.
  pose proof (Z.quot_rem' a b) as Hq.
  split; intros H; [lia|].
  apply (Z.mod_unique_pos a (Z.abs b) (Z.sgn b * Z.quot a b)); [lia|].
  destruct (Z.abs_spec b) as [[? ->]|[? ->]]; nia.
Qed.

(** ** Copies and their storage *)

Lemma copy_small v h : Storage.copy (Storage.Small v) h = Some (Storage.Small v, h).
Proof. reflexivity. Qed.

(** The constructor from an [mpz_t] initialises its member first: the new
    object owns fresh limbs holding the same integer, and the source keeps
    its own. *)
Lemma SlowMPInt_of_mpz_owns_fresh (src : Storage.mpz_t) (h : gmap Storage.loc Z) (v : Z) :
  Storage.mpz_value src h = Some v ->
  exists l h',
    Storage.SlowMPInt_of_mpz src h = Some (Storage.mpz_at l, h') /\
    h !! l = None /\
    h' !! l = Some v /\
    Storage.mpz_value src h' = Some v /\
    forall v', Storage.mpz_value src (<[l := v']> h') = Some v.
Proof.
  intros Hv. unfold Storage.SlowMPInt_of_mpz, Storage.mpz_init.
  set (l := fresh (dom h)).
  assert (Hfresh : h !! l = None).
  { apply not_elem_of_dom. apply is_fresh. }
  assert (Hsrc : Storage.mpz_value src (<[l := 0]> h) = Some v).
  { destruct src as [|s]; cbn in *; [discriminate|].
    rewrite lookup_insert_ne; [assumption|]. intros ->. congruence. }
  cbn [Storage.mpz_set]. rewrite lookup_insert_eq. cbn [mbind option_bind].
  rewrite Hsrc. cbn [mbind option_bind].
  exists l, (<[l := v]> (<[l := 0]> h)). split; [reflexivity|].
  split; [assumption|]. split; [apply lookup_insert_eq|].
  assert (Hne : forall s, src = Storage.mpz_at s -> l <> s).
  { intros s -> ->. cbn in Hv. congruence. }
  split.
  - destruct src as [|s]; cbn in *; [discriminate|].
    rewrite !lookup_insert_ne by (apply Hne; reflexivity). assumption.
  - intros v'. destruct src as [|s]; cbn in *; [discriminate|].
    rewrite !lookup_insert_ne by (apply Hne; reflexivity). assumption.
Qed.

(** C2 on a large value: the copy constructor of [SlowMPInt] writes with
    [mpz_set] into a member that no [mpz_init] has initialised, so the copy
    of a large [MPInt] has no result, whatever the heap; a large value
    with its limbs on the heap is an instance. *)
Theorem copy_large_uninitialised :
  (forall (m : Storage.mpz_t) (h : gmap Storage.loc Z),
     Storage.SlowMPInt_copy m h = None /\
     Storage.copy (Storage.Large m) h = None) /\
  Storage.value (Storage.Large (Storage.mpz_at 1%positive))
    {[ 1%positive := 9223372036854775808 ]} = Some 9223372036854775808 /\
  Storage.copy (Storage.Large (Storage.mpz_at 1%positive))
    {[ 1%positive := 9223372036854775808 ]} = None.
Proof. repeat split. Qed.

(** * Further properties of the code *)

(** ** Math.h: checked addition and subtraction *)

(** X1. On two 64-bit words [AddOverflow] stores the sum truncated to 64
    bits and returns true exactly when the exact sum is not a 64-bit value,
    whether or not the compiler has the intrinsic; without overflow the
    stored result is the exact sum. *)
Theorem AddOverflow_exact (cc : Compiler) (X Y : Z) :
  in_range X -> in_range Y ->
  fst (math.AddOverflow cc X Y) = to_signed (X + Y) /\
  in_range (fst (math.AddOverflow cc X Y)) /\
  (snd (math.AddOverflow cc X Y) = true <-> ~ in_range (X + Y)) /\
  (snd (math.AddOverflow cc X Y) = false -> fst (math.AddOverflow cc X Y) = X + Y).
Proof.
  intros HX HY. rewrite AddOverflow_builtin by assumption.
  cbn [fst snd builtin_add_overflow]. split; [reflexivity|].
  split; [apply to_signed_range|]. split.
  - rewrite negb_true_iff. apply fits_false.
  - rewrite negb_false_iff. intros Hf. apply to_signed_in_range.
    now apply fits_in_range.
Qed.

Lemma AddOverflow_exact_witness :
  in_range max_signed /\ in_range 1 /\
  fst (math.AddOverflow (mkCompiler false false false) max_signed 1) = min_signed /\
  snd (math.AddOverflow (mkCompiler false false false) max_signed 1) = true.
Proof.
  assert (H1 : in_range max_signed) by (unfold in_range, min_signed, max_signed; lia).
  assert (H2 : in_range 1) by (unfold in_range, min_signed, max_signed; lia).
  destruct (AddOverflow_exact (mkCompiler false false false) max_signed 1 H1 H2)
    as (Hr & _ & Hov & _).
  split; [exact H1 | split; [exact H2 | split; [exact Hr |]]].
  apply Hov. unfold in_range, min_signed, max_signed. lia.
Defined.

(** X2. On two 64-bit words [SubOverflow] stores the difference truncated
    to 64 bits and returns true exactly when the exact difference is not a
    64-bit value, whether or not the compiler has the intrinsic. *)
Theorem SubOverflow_exact (cc : Compiler) (X Y : Z) :
  in_range X -> in_range Y ->
  fst (math.SubOverflow cc X Y) = to_signed (X - Y) /\
  in_range (fst (math.SubOverflow cc X Y)) /\
  (snd (math.SubOverflow cc X Y) = true <-> ~ in_range (X - Y)) /\
  (snd (math.SubOverflow cc X Y) = false -> fst (math.SubOverflow cc X Y) = X - Y).
Proof.
  intros HX HY. rewrite SubOverflow_builtin by assumption.
  cbn [fst snd builtin_sub_overflow]. split; [reflexivity|].
  split; [apply to_signed_range|]. split.
  - rewrite negb_true_iff. apply fits_false.
  - rewrite negb_false_iff. intros Hf. apply to_signed_in_range.
    now apply fits_in_range.
Qed.

Lemma SubOverflow_exact_witness :
  in_range 0 /\ in_range min_signed /\
  fst (math.SubOverflow (mkCompiler false false false) 0 min_signed) = min_signed /\
  snd (math.SubOverflow (mkCompiler false false false) 0 min_signed) = true.
Proof.
  assert (H1 : in_range 0) by (unfold in_range, min_signed, max_signed; lia).
  assert (H2 : in_range min_signed) by (unfold in_range, min_signed, max_signed; lia).
  destruct (SubOverflow_exact (mkCompiler false false false) 0 min_signed H1 H2)
    as (Hr & _ & Hov & _).
  split; [exact H1 | split; [exact H2 | split; [exact Hr |]]].
  apply Hov. unfold in_range, min_signed, max_signed. lia.
Defined.

(** ** MPInt: comparisons *)

Lemma mpz_cmp_eqb a b : (Gmp.mpz_cmp a b =? 0) = (a =? b).
Proof.
  unfold Gmp.mpz_cmp. rewrite (Z.eqb_compare a b).
  destruct (a ?= b); reflexivity.
Qed.

Lemma mpz_cmp_gtb a b : (Gmp.mpz_cmp a b >? 0) = (a >? b).
Proof. unfold Gmp.mpz_cmp, Z.gtb. destruct (a ?= b); reflexivity. Qed.

Lemma mpz_cmp_ltb a b : (Gmp.mpz_cmp a b <? 0) = (a <? b).
Proof. unfold Gmp.mpz_cmp, Z.ltb. destruct (a ?= b); reflexivity. Qed.

Lemma mpz_cmp_leb a b : (Gmp.mpz_cmp a b <=? 0) = (a <=? b).
Proof. unfold Gmp.mpz_cmp, Z.leb. destruct (a ?= b); reflexivity. Qed.

Lemma mpz_cmp_geb a b : (Gmp.mpz_cmp a b >=? 0) = (a >=? b).
Proof. unfold Gmp.mpz_cmp, Z.geb. destruct (a ?= b); reflexivity. Qed.

Ltac cmp_unfold :=
  unfold MP.eq, MP.ne, MP.gt, MP.lt, MP.le, MP.ge,
    MP.eq_int, MP.ne_int, MP.gt_int, MP.lt_int, MP.le_int, MP.ge_int,
    MP.int_eq, MP.int_ne, MP.int_gt, MP.int_lt, MP.int_le, MP.int_ge,
    Slow.eq_int, Slow.ne_int, Slow.gt_int, Slow.lt_int, Slow.le_int, Slow.ge_int,
    Slow.int_eq, Slow.int_ne, Slow.int_gt, Slow.int_lt, Slow.int_le, Slow.int_ge,
    MP.mpintFromInt64, MP.toSlow,
    Slow.eq, Slow.ne, Slow.gt, Slow.lt, Slow.le, Slow.ge, Slow.of_int64,
    Gmp.mpz_set_si;
  cbn [val MP.value];
  rewrite ?mpz_cmp_eqb, ?mpz_cmp_gtb, ?mpz_cmp_ltb, ?mpz_cmp_leb, ?mpz_cmp_geb.

(** X8. The twelve comparisons of an [MPInt] with an [int64_t], which
    have code of their own, decide the order of the number held against
    the word, on either side and in either representation. *)
Theorem int_comparisons_decide_order (a : MPInt) (b : Z) :
  (MP.eq_int a b = (MP.value a =? b) /\
   MP.ne_int a b = negb (MP.value a =? b) /\
   MP.gt_int a b = (MP.value a >? b) /\
   MP.lt_int a b = (MP.value a <? b) /\
   MP.le_int a b = (MP.value a <=? b) /\
   MP.ge_int a b = (MP.value a >=? b)) /\
  (MP.int_eq b a = (b =? MP.value a) /\
   MP.int_ne b a = negb (b =? MP.value a) /\
   MP.int_gt b a = (b >? MP.value a) /\
   MP.int_lt b a = (b <? MP.value a) /\
   MP.int_le b a = (b <=? MP.value a) /\
   MP.int_ge b a = (b >=? MP.value a)).
Proof.
  destruct a as [v|[v]]; cmp_unfold; repeat split.
Qed.

(** ** MPInt: division and remainder *)

Lemma divWouldOverflow_fits a b :
  in_range a -> in_range b -> b <> 0 ->
  detail.divWouldOverflow a b = negb (fits (Z.quot a b)).
Proof.
  intros Ha Hb Hb0. unfold detail.divWouldOverflow.
  destruct (Z.eqb_spec a min_signed) as [->|E]; cbn [andb].
  - destruct (Z.eqb_spec b (-1)) as [->|F]; [reflexivity|].
    symmetry. apply negb_false_iff, fits_in_range.
    unfold in_range, min_signed, max_signed in *.
    Z.to_euclidean_division_equations. nia.
  - symmetry. apply negb_false_iff, fits_in_range.
    unfold in_range, min_signed, max_signed in *.
    Z.to_euclidean_division_equations. nia.
Qed.

(** X12. [divWouldOverflow] is true exactly when the truncated quotient of
    two 64-bit words, the divisor not zero, is not a 64-bit value. *)
Theorem divWouldOverflow_iff (a b : Z) :
  in_range a -> in_range b -> b <> 0 ->
  (detail.divWouldOverflow a b = true <-> ~ in_range (Z.quot a b)).
Proof.
  intros Ha Hb Hb0. rewrite divWouldOverflow_fits by assumption.
  rewrite negb_true_iff. apply fits_false.
Qed.

Lemma divWouldOverflow_iff_witness :
  in_range min_signed /\ in_range (-1) /\ -1 <> 0 /\
  detail.divWouldOverflow min_signed (-1) = true /\
  ~ in_range (Z.quot min_signed (-1)).
Proof.
  assert (H1 : in_range min_signed) by (unfold in_range, min_signed, max_signed; lia).
  assert (H2 : in_range (-1)) by (unfold in_range, min_signed, max_signed; lia).
  assert (H3 : -1 <> 0) by lia.
  split; [exact H1 | split; [exact H2 | split; [exact H3 | split; [reflexivity |]]]].
  exact (proj1 (divWouldOverflow_iff min_signed (-1) H1 H2 H3) eq_refl).
Defined.

(** X14. On two small operands, the divisor not zero and the pair not
    [INT64_MIN], [-1], [/] and [%] return small values [q] and [r] with
    [q * b + r = a], [|r| < |b|] and [r] zero or of the sign of [a]. *)
Theorem div_rem_identity_small (a b : Z) :
  in_range a -> in_range b -> b <> 0 -> ~ (a = min_signed /\ b = -1) ->
  exists q r,
    MP.div (Small a) (Small b) = Some (Small q) /\
    MP.rem (Small a) (Small b) = Some (Small r) /\
    q * b + r = a /\ Z.abs r < Z.abs b /\ 0 <= r * a.
Proof.
  intros Ha Hb Hb0 Hex.
  assert (Hd : detail.divWouldOverflow a b = false).
  { unfold detail.divWouldOverflow.
    destruct (Z.eqb_spec a min_signed), (Z.eqb_spec b (-1)); try reflexivity. tauto. }
  exists (Z.quot a b), (Z.rem a b).
  split; [unfold MP.div; rewrite Hd, sdiv_spec by assumption; reflexivity|].
  split; [now apply rem_small|].
  pose proof (Z.quot_rem' a b). pose proof (Z.rem_bound_abs a b Hb0).
  split; [lia|]. split; [assumption|].
  now apply Z.rem_sign_mul.
Qed.

Lemma div_rem_identity_small_witness :
  in_range (-7) /\ in_range 2 /\ 2 <> 0 /\ ~ (-7 = min_signed /\ 2 = -1) /\
  exists q r,
    MP.div (Small (-7)) (Small 2) = Some (Small q) /\
    MP.rem (Small (-7)) (Small 2) = Some (Small r) /\
    q * 2 + r = -7 /\ Z.abs r < Z.abs 2 /\ 0 <= r * -7.
Proof.
  assert (H1 : in_range (-7)) by (unfold in_range, min_signed, max_signed; lia).
  assert (H2 : in_range 2) by (unfold in_range, min_signed, max_signed; lia).
  assert (H3 : 2 <> 0) by lia.
  assert (H4 : ~ (-7 = min_signed /\ 2 = -1)) by (unfold min_signed; lia).
  split; [exact H1 | split; [exact H2 | split; [exact H3 | split; [exact H4 |]]]].
  exact (div_rem_identity_small (-7) 2 H1 H2 H3 H4).
Defined.

(** ** SlowMPInt: the helpers *)

Lemma Slow_floorDiv_spec lhs rhs :
  val rhs <> 0 -> Slow.floorDiv lhs rhs = Some (mkSlow (val lhs / val rhs)).
Proof.
  intros H0. unfold Slow.floorDiv, Gmp.mpz_fdiv_q. rewrite Slow_eq_spec. unfold_slow.
  destruct (Z.eqb_spec (val rhs) (-1)) as [E|E].
  - rewrite E. do 2 f_equal. Z.to_euclidean_division_equations. nia.
  - destruct (Z.eqb_spec (val rhs) 0); [contradiction|]. reflexivity.
Qed.

Lemma Slow_ceilDiv_spec lhs rhs :
  val rhs <> 0 -> Slow.ceilDiv lhs rhs = Some (mkSlow (- ((- val lhs) / val rhs))).
Proof.
  intros H0. unfold Slow.ceilDiv, Gmp.mpz_cdiv_q. rewrite Slow_eq_spec. unfold_slow.
  destruct (Z.eqb_spec (val rhs) (-1)) as [E|E].
  - rewrite E. do 2 f_equal. Z.to_euclidean_division_equations. nia.
  - destruct (Z.eqb_spec (val rhs) 0); [contradiction|]. reflexivity.
Qed.

Lemma Slow_rem_spec a o :
  val o <> 0 -> Slow.rem a o = Some (mkSlow (val a mod Z.abs (val o))).
Proof.
  intros H0. unfold_slow. destruct (Z.eqb_spec (val o) 0); [contradiction|]. reflexivity.
Qed.

Lemma Slow_mod_spec lhs rhs :
  1 <= val rhs -> Slow.mod_ lhs rhs = Some (mkSlow (val lhs mod val rhs)).
Proof.
  intros Hr. unfold Slow.mod_. rewrite Slow_ge_spec. unfold Slow.of_int64, Gmp.mpz_set_si.
  cbn [val]. rewrite Z.geb_leb. destruct (Z.leb_spec 1 (val rhs)); [|lia]. cbn [negb].
  rewrite Slow_rem_spec by lia. cbn [mbind option_bind].
  rewrite Slow_lt_spec. cbn [val].
  rewrite Z.abs_eq by lia.
  pose proof (Z.mod_pos_bound (val lhs) (val rhs) ltac:(lia)).
  destruct (Z.ltb_spec (val lhs mod val rhs) 0); [lia|]. reflexivity.
Qed.

(** X16. The fallback [floorDiv] and [ceilDiv] of two [SlowMPInt]s, the
    divisor not zero, hold the exact quotient rounded towards negative and
    towards positive infinity; the shortcut for the divisor [-1] returns
    the same as the general case would. *)
Theorem Slow_floorDiv_ceilDiv_rounding (lhs rhs : SlowMPInt) :
  val rhs <> 0 ->
  exists f c,
    Slow.floorDiv lhs rhs = Some f /\ Slow.ceilDiv lhs rhs = Some c /\
    Convention.rounds_toward_neg_inf (val lhs) (val rhs) (val f) /\
    Convention.rounds_toward_pos_inf (val lhs) (val rhs) (val c) /\
    Gmp.mpz_fdiv_q (val lhs) (val rhs) = Some (val f) /\
    Gmp.mpz_cdiv_q (val lhs) (val rhs) = Some (val c).
Proof.
  intros H0. do 2 eexists.
  split; [now apply Slow_floorDiv_spec|]. split; [now apply Slow_ceilDiv_spec|].
  cbn [val]. split; [now apply div_rounds_toward_neg_inf|].
  split; [now apply opp_div_rounds_toward_pos_inf|].
  unfold Gmp.mpz_fdiv_q, Gmp.mpz_cdiv_q.
  destruct (Z.eqb_spec (val rhs) 0); [contradiction|]. split; reflexivity.
Qed.

Lemma Slow_floorDiv_ceilDiv_rounding_witness :
  val (mkSlow (-1)) <> 0 /\
  Slow.floorDiv (mkSlow (-18446744073709551617)) (mkSlow (-1))
    = Some (mkSlow 18446744073709551617) /\
  Slow.ceilDiv (mkSlow (-18446744073709551617)) (mkSlow (-1))
    = Some (mkSlow 18446744073709551617) /\
  exists f c,
    Slow.floorDiv (mkSlow (-18446744073709551617)) (mkSlow (-1)) = Some f /\
    Slow.ceilDiv (mkSlow (-18446744073709551617)) (mkSlow (-1)) = Some c /\
    Convention.rounds_toward_neg_inf (-18446744073709551617) (-1) (val f) /\
    Convention.rounds_toward_pos_inf (-18446744073709551617) (-1) (val c).
Proof.
  assert (H : val (mkSlow (-1)) <> 0) by (cbn; lia).
  split; [exact H | split; [reflexivity | split; [reflexivity |]]].
  destruct (Slow_floorDiv_ceilDiv_rounding (mkSlow (-18446744073709551617)) (mkSlow (-1)) H)
    as (f & c & Hf & Hc & Hrf & Hrc & _).
  exists f, c. split; [exact Hf | split; [exact Hc | split; [exact Hrf | exact Hrc]]].
Defined.

(** X17. [operator%] of two [SlowMPInt]s never returns a negative number,
    so the fallback [mod] never takes its correcting branch: for a divisor
    [>= 1] it returns what [%] returns, the remainder in [[0, rhs)]
    congruent to the dividend; for a divisor below 1 it fails its
    assertion. *)
Theorem Slow_mod_is_rem (lhs rhs : SlowMPInt) :
  (forall r, Slow.rem lhs rhs = Some r -> 0 <= val r) /\
  (1 <= val rhs ->
     Slow.mod_ lhs rhs = Slow.rem lhs rhs /\
     Slow.mod_ lhs rhs = Some (mkSlow (val lhs mod val rhs)) /\
     Convention.euclidean_remainder (val lhs) (val rhs) (val lhs mod val rhs)) /\
  (val rhs < 1 -> Slow.mod_ lhs rhs = None).
Proof.
  split; [|split].
  - intros r. unfold_slow. destruct (Z.eqb_spec (val rhs) 0); [discriminate|].
    cbn. intros [= <-]. cbn. apply Z.mod_pos_bound. lia.
  - intros Hr. split; [|split].
    + rewrite Slow_mod_spec, Slow_rem_spec by lia. now rewrite Z.abs_eq by lia.
    + now apply Slow_mod_spec.
    + apply mod_euclidean_remainder. lia.
  - intros Hr. unfold Slow.mod_. rewrite Slow_ge_spec.
    unfold Slow.of_int64, Gmp.mpz_set_si. cbn [val]. rewrite Z.geb_leb.
    destruct (Z.leb_spec 1 (val rhs)); [lia | reflexivity].
Qed.

Lemma Slow_mod_is_rem_witness :
  1 <= val (mkSlow 3) /\
  Slow.mod_ (mkSlow (-18446744073709551617)) (mkSlow 3) = Some (mkSlow 1) /\
  Slow.rem (mkSlow (-18446744073709551617)) (mkSlow 3) = Some (mkSlow 1).
Proof.
  assert (H : 1 <= val (mkSlow 3)) by (cbn; lia).
  destruct (proj1 (proj2 (Slow_mod_is_rem (mkSlow (-18446744073709551617)) (mkSlow 3))) H)
    as (He & Hm & _).
  split; [exact H | split; [exact Hm |]]. rewrite <- He. exact Hm.
Defined.

(** ** MPInt: the helpers *)

Lemma gcd_abs_pos a b : ~ (a = 0 /\ b = 0) -> 0 < Z.gcd (Z.abs a) (Z.abs b).
Proof.
  intros Hnz. pose proof (Z.gcd_nonneg (Z.abs a) (Z.abs b)).
  destruct (Z.eq_dec (Z.gcd (Z.abs a) (Z.abs b)) 0) as [E|E]; [|lia].
  apply Z.gcd_eq_0 in E. lia.
Qed.

Lemma quot_abs_gcd_lcm a b :
  ~ (a = 0 /\ b = 0) ->
  Z.quot (Z.abs a * Z.abs b) (Z.gcd (Z.abs a) (Z.abs b)) = Z.lcm a b.
Proof.
  intros Hnz. pose proof (gcd_abs_pos a b Hnz) as Hpos.
  rewrite Z.gcd_abs_l, Z.gcd_abs_r in *.
  unfold Z.lcm. destruct (Z.gcd_divide_r a b) as [k Hk].
  set (g := Z.gcd a b) in *.
  rewrite Z.quot_div_nonneg by (try lia; apply Z.mul_nonneg_nonneg; apply Z.abs_nonneg).
  rewrite Hk at 1 2. rewrite Z.div_mul by lia.
  rewrite (Z.abs_mul k g), (Z.abs_eq g) by lia.
  rewrite Z.mul_assoc, Z.div_mul by lia.
  now rewrite Z.abs_mul.
Qed.

Lemma quot_abs_gcd_mul a b :
  ~ (a = 0 /\ b = 0) ->
  Z.quot (Z.abs a * Z.abs b) (Z.gcd (Z.abs a) (Z.abs b)) * Z.gcd a b = Z.abs (a * b).
Proof.
  intros Hnz. pose proof (gcd_abs_pos a b Hnz) as Hpos.
  rewrite Z.gcd_abs_l, Z.gcd_abs_r in *.
  destruct (Z.gcd_divide_r a b) as [k Hk].
  set (g := Z.gcd a b) in *.
  assert (Hab : Z.abs b = Z.abs k * g).
  { transitivity (Z.abs (k * g)); [now f_equal|].
    rewrite Z.abs_mul, (Z.abs_eq g) by lia. reflexivity. }
  rewrite Z.abs_mul, Hab, Z.mul_assoc, Z.quot_mul by lia. reflexivity.
Qed.

(** X19. For the small [INT64_MIN] and a small positive divisor,
    [floorDiv] and [ceilDiv] pass the guard for [-1] and reach the helpers
    of [Math.h], which negate [INT64_MIN], a signed overflow: they have no
    result there. *)
Theorem floorDiv_ceilDiv_min_dividend (b : Z) :
  in_range b -> 0 < b ->
  detail.divWouldOverflow min_signed b = false /\
  math.floorDiv min_signed b = None /\
  math.ceilDiv min_signed b = None /\
  MP.floorDiv (Small min_signed) (Small b) = None /\
  MP.ceilDiv (Small min_signed) (Small b) = None.
Proof.
  intros Hb Hpos.
  assert (Hd : detail.divWouldOverflow min_signed b = false).
  { unfold detail.divWouldOverflow. destruct (Z.eqb_spec b (-1)); [lia|].
    apply andb_false_r. }
  assert (Hb0 : (b =? 0) = false) by (apply Z.eqb_neq; lia).
  assert (Hlt : (b <? 0) = false) by (apply Z.ltb_ge; lia).
  assert (Hgt : (b >? 0) = true) by (rewrite Z.gtb_ltb; apply Z.ltb_lt; lia).
  assert (Hf : math.floorDiv min_signed b = None).
  { unfold math.floorDiv. rewrite Hb0, Hlt. reflexivity. }
  assert (Hc : math.ceilDiv min_signed b = None).
  { unfold math.ceilDiv. rewrite Hb0, Hgt. reflexivity. }
  split; [exact Hd | split; [exact Hf | split; [exact Hc | split]]].
  - unfold MP.floorDiv. rewrite Hd, Hf. reflexivity.
  - unfold MP.ceilDiv. rewrite Hd, Hc. reflexivity.
Qed.

Lemma floorDiv_ceilDiv_min_dividend_witness :
  in_range 2 /\ 0 < 2 /\
  MP.floorDiv (Small min_signed) (Small 2) = None /\
  MP.ceilDiv (Small min_signed) (Small 2) = None.
Proof.
  assert (H1 : in_range 2) by (unfold in_range, min_signed, max_signed; lia).
  assert (H2 : 0 < 2) by lia.
  destruct (floorDiv_ceilDiv_min_dividend 2 H1 H2) as (_ & _ & _ & Hf & Hc).
  split; [exact H1 | split; [exact H2 | split; [exact Hf | exact Hc]]].
Defined.

(** ** MPInt: preconditions and the zero divisor *)

Lemma gt_int_0_false o : MP.value o <= 0 -> MP.gt_int o 0 = false.
Proof.
  intros H. destruct (MP.gt_int o 0) eqn:E; [|reflexivity].
  apply gt_int_0 in E. lia.
Qed.

Lemma ge_int_0_false o : MP.value o < 0 -> MP.ge_int o 0 = false.
Proof.
  intros H. destruct (MP.ge_int o 0) eqn:E; [|reflexivity].
  apply ge_int_0 in E. lia.
Qed.

Lemma Slow_mod_below_one lhs rhs : val rhs < 1 -> Slow.mod_ lhs rhs = None.
Proof.
  intros Hr. unfold Slow.mod_. rewrite Slow_ge_spec.
  unfold Slow.of_int64, Gmp.mpz_set_si. cbn [val]. rewrite Z.geb_leb.
  destruct (Z.leb_spec 1 (val rhs)); [lia | reflexivity].
Qed.

Lemma mod_below_one x o : MP.value o < 1 -> MP.mod_ x o = None.
Proof.
  intros Hlt. destruct x as [a|s], o as [b|t]; cbn [MP.value] in Hlt; unfold MP.mod_;
    try (rewrite Slow_mod_below_one by (unfold_slow; assumption); reflexivity).
  unfold math.mod_. rewrite Z.geb_leb. destruct (Z.leb_spec 1 b); [lia | reflexivity].
Qed.

(** X24. The asserted preconditions, in either representation:
    [divByPositive] and [divByPositiveInPlace] with a divisor [<= 0],
    [mod] with a divisor [< 1] and [gcd] with a negative operand stop at
    the assertion and return nothing. *)
Theorem precondition_failures (x o : MPInt) :
  (MP.value o <= 0 ->
     MP.divByPositive x o = None /\ MP.divByPositiveInPlace x o = None) /\
  (MP.value o < 1 -> MP.mod_ x o = None) /\
  (MP.value x < 0 \/ MP.value o < 0 -> MP.gcd x o = None).
Proof.
  split; [|split].
  - intros Hle. unfold MP.divByPositive, MP.divByPositiveInPlace.
    rewrite gt_int_0_false by assumption. split; reflexivity.
  - apply mod_below_one.
  - intros Hneg. unfold MP.gcd.
    destruct Hneg as [H|H]; rewrite (ge_int_0_false _ H), ?andb_false_r; reflexivity.
Qed.

Lemma precondition_failures_witness :
  MP.value (Small 0) <= 0 /\ MP.value (Small 0) < 1 /\
  (MP.value (Large (mkSlow (-18446744073709551616))) < 0 \/ MP.value (Small 0) < 0) /\
  MP.divByPositive (Large (mkSlow (-18446744073709551616))) (Small 0) = None /\
  MP.mod_ (Large (mkSlow (-18446744073709551616))) (Small 0) = None /\
  MP.gcd (Large (mkSlow (-18446744073709551616))) (Small 0) = None.
Proof.
  assert (H1 : MP.value (Small 0) <= 0) by (cbn; lia).
  assert (H2 : MP.value (Small 0) < 1) by (cbn; lia).
  assert (H3 : MP.value (Large (mkSlow (-18446744073709551616))) < 0 \/
               MP.value (Small 0) < 0) by (left; cbn; lia).
  destruct (precondition_failures (Large (mkSlow (-18446744073709551616))) (Small 0))
    as (Hd & Hm & Hg).
  split; [exact H1 | split; [exact H2 | split; [exact H3 |]]].
  split; [exact (proj1 (Hd H1)) | split; [exact (Hm H2) | exact (Hg H3)]].
Defined.

(** X25. With a divisor that holds zero, in either representation, [/],
    [%], [/=], [%=], [ceilDiv], [floorDiv], [mod] and [divByPositive]
    return nothing. *)
Theorem zero_divisor_has_no_result (x o : MPInt) :
  MP.value o = 0 ->
  MP.div x o = None /\ MP.rem x o = None /\
  MP.div_assign x o = None /\ MP.rem_assign x o = None /\
  MP.ceilDiv x o = None /\ MP.floorDiv x o = None /\
  MP.mod_ x o = None /\ MP.divByPositive x o = None.
Proof.
  intros H0.
  assert (Hd : forall a, detail.divWouldOverflow a 0 = false)
    by (intros a; unfold detail.divWouldOverflow; apply andb_false_r).
  assert (Hm : MP.mod_ x o = None) by (apply mod_below_one; lia).
  assert (Hp : MP.divByPositive x o = None).
  { unfold MP.divByPositive. rewrite gt_int_0_false by lia. reflexivity. }
  destruct x as [a|[a]], o as [b|[b]]; cbn in H0; subst b;
    repeat split; try assumption;
    unfold MP.div, MP.rem, MP.div_assign, MP.rem_assign, MP.rem, MP.ceilDiv, MP.floorDiv;
    rewrite ?Hd; reflexivity.
Qed.

Lemma zero_divisor_has_no_result_witness :
  MP.value (Large (mkSlow 0)) = 0 /\
  MP.div (Small 5) (Large (mkSlow 0)) = None /\
  MP.floorDiv (Small 5) (Large (mkSlow 0)) = None.
Proof.
  assert (H : MP.value (Large (mkSlow 0)) = 0) by reflexivity.
  destruct (zero_divisor_has_no_result (Small 5) (Large (mkSlow 0)) H)
    as (Hd & _ & _ & _ & _ & Hf & _).
  split; [exact H | split; [exact Hd | exact Hf]].
Defined.

(** ** MPInt: the small representation stays within 64 bits *)

Lemma assign_id this o : MP.assign this o = o.
Proof. destruct o; reflexivity. Qed.

Lemma binop_assign_eval cc op this o r :
  binop_assign cc op this o = Some r -> binop_eval cc op this o = Some r.
Proof.
  destruct op; cbn [binop_assign binop_eval]; try discriminate.
  - unfold MP.add_assign, MP.add.
    destruct this as [a|s], o as [b|t]; rewrite ?assign_id; try tauto;
      destruct (detail.addOverflow cc a b) as [res []]; cbn; rewrite ?assign_id; tauto.
  - unfold MP.sub_assign, MP.sub.
    destruct this as [a|s], o as [b|t]; rewrite ?assign_id; try tauto;
      destruct (detail.subOverflow cc a b) as [res []]; cbn; rewrite ?assign_id; tauto.
  - unfold MP.mul_assign, MP.mul.
    destruct this as [a|s], o as [b|t]; rewrite ?assign_id; try tauto;
      destruct (detail.mulOverflow cc a b) as [res []]; cbn; rewrite ?assign_id; tauto.
  - unfold MP.div_assign, MP.div. destruct this, o; rewrite ?assign_id; try tauto;
      destruct (Slow.div _ _); cbn; rewrite ?assign_id; tauto.
  - unfold MP.rem_assign. destruct (MP.rem this o); cbn; rewrite ?assign_id; tauto.
  - unfold MP.divByPositiveInPlace, MP.divByPositive.
    destruct (negb (MP.gt_int o 0)); [tauto|].
    destruct this, o; try tauto; destruct (Slow.div _ _); cbn; rewrite ?assign_id; tauto.
Qed.



(** ** Conversion to the word *)

Lemma mpz_get_si_in_range v : in_range (Gmp.mpz_get_si v).
Proof.
  unfold Gmp.mpz_get_si, half_modulus, in_range, min_signed, max_signed.
  destruct (Z.eqb_spec v 0); [lia|]. rewrite Z.gtb_ltb.
  destruct (Z.ltb_spec 0 v).
  - pose proof (Z.mod_pos_bound v 9223372036854775808 ltac:(lia)). lia.
  - pose proof (Z.mod_pos_bound (- v - 1) 9223372036854775808 ltac:(lia)). lia.
Qed.

Lemma mpz_get_si_fits v : in_range v -> Gmp.mpz_get_si v = v.
Proof.
  unfold Gmp.mpz_get_si, half_modulus, in_range, min_signed, max_signed. intros Hv.
  destruct (Z.eqb_spec v 0); [lia|]. rewrite Z.gtb_ltb.
  destruct (Z.ltb_spec 0 v).
  - rewrite Z.mod_small by lia. reflexivity.
  - rewrite Z.mod_small by lia. lia.
Qed.

(** X27. The conversion of an [MPInt] to [int64_t] always returns a
    64-bit value; it returns the number held whenever that is a 64-bit
    value, in either representation, so that a word made into an [MPInt]
    converts back to itself. *)
Theorem to_int64_round_trip (x : MPInt) :
  MP.wf x ->
  in_range (MP.int64FromMPInt x) /\
  (in_range (MP.value x) -> MP.int64FromMPInt x = MP.value x) /\
  (forall v, MP.int64FromMPInt (MP.mpintFromInt64 v) = v).
Proof.
  intros Hx.
  split; [|split; [|reflexivity]].
  - destruct x as [v|s]; [exact Hx | apply mpz_get_si_in_range].
  - destruct x as [v|s]; [reflexivity | apply mpz_get_si_fits].
Qed.

Lemma to_int64_round_trip_witness :
  MP.wf (Large (mkSlow min_signed)) /\
  MP.int64FromMPInt (Large (mkSlow min_signed)) = min_signed /\
  in_range (MP.int64FromMPInt (Large (mkSlow 18446744073709551617))).
Proof.
  assert (H : MP.wf (Large (mkSlow min_signed))) by exact I.
  assert (H' : MP.wf (Large (mkSlow 18446744073709551617))) by exact I.
  split; [exact H | split].
  - apply (proj1 (proj2 (to_int64_round_trip _ H))).
    cbn. unfold in_range, min_signed, max_signed. lia.
  - exact (proj1 (to_int64_round_trip _ H')).
Defined.

(** ** Storage: the constructors that initialise *)

(** X28. [SlowMPInt(int64_t)] and [SlowMPInt(const mpz_t &)] call
    [mpz_init] before they write: the new object owns limbs at a location
    that was free, holding the word or the source's number, every other
    location keeps what it held, and a later write to the new object
    leaves the source's number as it was. *)
Theorem SlowMPInt_constructors_own_storage
    (h : gmap Storage.loc Z) (v : Z) (src : Storage.mpz_t) :
  (exists l h',
     Storage.SlowMPInt_of_int64 v h = Some (Storage.mpz_at l, h') /\
     h !! l = None /\ h' !! l = Some v /\
     forall l', l' <> l -> h' !! l' = h !! l') /\
  (forall w, Storage.mpz_value src h = Some w ->
     exists l h',
       Storage.SlowMPInt_of_mpz src h = Some (Storage.mpz_at l, h') /\
       h !! l = None /\ h' !! l = Some w /\
       Storage.mpz_value src h' = Some w /\
       forall v', Storage.mpz_value src (<[l := v']> h') = Some w).
Proof.
  split.
  - unfold Storage.SlowMPInt_of_int64, Storage.mpz_init.
    set (l := fresh (dom h)).
    assert (Hfresh : h !! l = None) by (apply not_elem_of_dom, is_fresh).
    cbn [Storage.mpz_set_si]. rewrite lookup_insert_eq. cbn [mbind option_bind].
    exists l, (<[l := v]> (<[l := 0]> h)).
    split; [reflexivity|]. split; [assumption|].
    split; [apply lookup_insert_eq|].
    intros l' Hne. rewrite !lookup_insert_ne by congruence. reflexivity.
  - intros w Hw. exact (SlowMPInt_of_mpz_owns_fresh src h w Hw).
Qed.

Lemma SlowMPInt_constructors_own_storage_witness :
  Storage.mpz_value (Storage.mpz_at 1%positive) {[ 1%positive := 7 ]} = Some 7 /\
  exists l h',
    Storage.SlowMPInt_of_mpz (Storage.mpz_at 1%positive) {[ 1%positive := 7 ]}
      = Some (Storage.mpz_at l, h') /\
    h' !! l = Some 7 /\
    Storage.mpz_value (Storage.mpz_at 1%positive) (<[l := 9]> h') = Some 7.
Proof.
  assert (H : Storage.mpz_value (Storage.mpz_at 1%positive) {[ 1%positive := 7 ]} = Some 7)
    by reflexivity.
  split; [exact H|].
  destruct (proj2 (SlowMPInt_constructors_own_storage
                     {[ 1%positive := 7 ]} 0 (Storage.mpz_at 1%positive)) 7 H)
    as (l & h' & Hc & _ & Hl & _ & Hk).
  exists l, h'. split; [exact Hc | split; [exact Hl | exact (Hk 9)]].
Defined.

(** ** Hashing: the sign *)

Lemma limbs_opp v : Hash.limbs (- v) = Hash.limbs v.
Proof. unfold Hash.limbs. now rewrite Z.abs_opp. Qed.

Lemma limbs_pos_length v : v <> 0 -> (0 < length (Hash.limbs v))%nat.
Proof.
  intros Hv. unfold Hash.limbs. cbn [Hash.digits].
  destruct (Z.leb_spec (Z.abs v) 0); [lia|]. cbn. lia.
Qed.



(** ** Hashing: the two representations *)


(** * The operators over the storage of the large representation *)

(** ** Where the copy constructor of [SlowMPInt] runs *)

Lemma bind_none {A B : Type} (m : Dispatch.run A) (k : A -> Dispatch.run B) h :
  (forall a h1, k a h1 = None) -> Dispatch.bind m k h = None.
Proof. intros Hk. unfold Dispatch.bind. destruct (m h) as [[a h1]|]; auto. Qed.

Lemma bind_some {A B : Type} (m : Dispatch.run A) (k : A -> Dispatch.run B) h a h1 :
  m h = Some (a, h1) -> Dispatch.bind m k h = k a h1.
Proof. intros Hm. unfold Dispatch.bind. now rewrite Hm. Qed.

Lemma of_Slow_none r h : Dispatch.of_Slow r h = None.
Proof. reflexivity. Qed.

Lemma via_Slow_none f x o h : Dispatch.via_Slow f x o h = None.
Proof.
  unfold Dispatch.via_Slow.
  apply bind_none; intros a h1. apply bind_none; intros b h2.
  apply bind_none; intros r h3. apply of_Slow_none.
Qed.

Lemma via_Slow_assign_none f this o h :
  Dispatch.bind (Dispatch.via_Slow f this o) (fun r => Dispatch.assign this r) h = None.
Proof. unfold Dispatch.bind. now rewrite via_Slow_none. Qed.

Lemma neg_via_Slow_none x h :
  Dispatch.bind (Dispatch.toSlow x)
    (fun a => Dispatch.bind (Dispatch.Slow_neg a) (fun r => Dispatch.of_Slow r)) h = None.
Proof.
  apply bind_none; intros a h1. apply bind_none; intros r h2. apply of_Slow_none.
Qed.

Lemma neg_min_none h : Dispatch.neg (Storage.Small min_signed) h = None.
Proof. unfold Dispatch.neg. rewrite Z.eqb_refl. cbn [negb]. apply neg_via_Slow_none. Qed.

Lemma neg_large_none m h : Dispatch.neg (Storage.Large m) h = None.
Proof. apply neg_via_Slow_none. Qed.

Lemma neg_small v h :
  v <> min_signed -> Dispatch.neg (Storage.Small v) h = Some (Storage.Small (- v), h).
Proof.
  intros Hv. unfold Dispatch.neg.
  destruct (Z.eqb_spec v min_signed); [contradiction | reflexivity].
Qed.

Lemma abs_large_none m h : Dispatch.abs (Storage.Large m) h = None.
Proof.
  unfold Dispatch.abs. apply bind_none. intros c h1.
  destruct c; [reflexivity | apply neg_large_none].
Qed.

Lemma abs_small v h :
  v <> min_signed -> Dispatch.abs (Storage.Small v) h = Some (Storage.Small (Z.abs v), h).
Proof.
  intros Hv. unfold Dispatch.abs, Dispatch.ge_int, Dispatch.bind, Dispatch.ret.
  destruct (Z.geb_spec v 0).
  - cbn. f_equal. f_equal. f_equal. lia.
  - rewrite neg_small by assumption. f_equal. f_equal. f_equal. lia.
Qed.

Lemma abs_min_none h : Dispatch.abs (Storage.Small min_signed) h = None.
Proof.
  unfold Dispatch.abs, Dispatch.ge_int, Dispatch.bind, Dispatch.ret.
  cbn. apply neg_min_none.
Qed.

Lemma gcd_large_none a b h :
  Dispatch.isLarge a = true \/ Dispatch.isLarge b = true -> Dispatch.gcd a b h = None.
Proof.
  intros Hl. unfold Dispatch.gcd.
  apply bind_none; intros ca h1. apply bind_none; intros c h2.
  apply bind_none; intros [] h3.
  destruct a, b; try apply via_Slow_none.
  destruct Hl; discriminate.
Qed.

Lemma lcm_large_none cc a b h :
  Dispatch.isLarge a = true \/ Dispatch.isLarge b = true -> Dispatch.lcm cc a b h = None.
Proof.
  intros Hl. unfold Dispatch.lcm.
  destruct a as [a|m].
  - destruct b as [b|m]; [destruct Hl; discriminate|].
    apply bind_none; intros x h1.
    unfold Dispatch.bind at 1. now rewrite abs_large_none.
  - unfold Dispatch.bind at 1. now rewrite abs_large_none.
Qed.

Lemma binop_large_none cc op x o h :
  Dispatch.isLarge x = true \/ Dispatch.isLarge o = true ->
  Dispatch.binop_eval cc op x o h = None.
Proof.
  intros Hl.
  destruct op; cbn [Dispatch.binop_eval];
    try (apply gcd_large_none; assumption);
    try (apply lcm_large_none; assumption).
  all: destruct x as [a|m], o as [b|n]; try (destruct Hl; discriminate).
  all: try apply via_Slow_none.
  all: unfold Dispatch.divByPositive;
    apply bind_none; intros c h1; apply bind_none; intros [] h2;
    apply via_Slow_none.
Qed.

Lemma inplace_large_none cc op this o h :
  Dispatch.isLarge this = true \/ Dispatch.isLarge o = true ->
  Dispatch.inplace_eval cc op this o h = None.
Proof.
  intros Hl.
  destruct op; cbn [Dispatch.inplace_eval].
  all: destruct this as [a|m], o as [b|n]; try (destruct Hl; discriminate).
  all: try apply via_Slow_assign_none.
  all: try (unfold Dispatch.rem_assign, Dispatch.rem, Dispatch.bind at 1;
            now rewrite via_Slow_none).
  all: unfold Dispatch.divByPositiveInPlace;
    apply bind_none; intros c h1; apply bind_none; intros [] h2;
    apply via_Slow_assign_none.
Qed.

(** ** What the fallback computes before the copy

    The sum and the negation that a promotion is to hold are computed in
    an initialised [SlowMPInt]; it is the construction of the [MPInt]
    from it that has no result. *)

(** [SlowMPInt(int64_t)] returns an object on fresh limbs that hold the
    word, and leaves every other object as it was. *)
Lemma SlowMPInt_of_int64_spec v h :
  exists l h',
    Storage.SlowMPInt_of_int64 v h = Some (Storage.mpz_at l, h') /\
    h !! l = None /\ h' !! l = Some v /\
    forall l', l' <> l -> h' !! l' = h !! l'.
Proof.
  exists (fresh (dom h)), (<[fresh (dom h) := v]> (<[fresh (dom h) := 0]> h)).
  split; [|split; [|split]].
  - unfold Storage.SlowMPInt_of_int64, Storage.mpz_init. cbn.
    now rewrite lookup_insert_eq.
  - apply not_elem_of_dom, is_fresh.
  - apply lookup_insert_eq.
  - intros l' Hl'. now rewrite !lookup_insert_ne by congruence.
Qed.

(** [SlowMPInt(a) + SlowMPInt(b)] is an initialised object that holds the
    exact sum. *)
Lemma fallback_add_value a b h :
  exists r h',
    Dispatch.bind (Dispatch.toSlow (Storage.Small a)) (fun x =>
      Dispatch.bind (Dispatch.toSlow (Storage.Small b)) (fun y =>
        Dispatch.Slow_add x y)) h = Some (r, h') /\
    Storage.mpz_value r h' = Some (a + b) /\
    Dispatch.of_Slow r h' = None.
Proof.
  cbn [Dispatch.toSlow].
  destruct (SlowMPInt_of_int64_spec a h) as (l1 & h1 & E1 & N1 & V1 & F1).
  destruct (SlowMPInt_of_int64_spec b h1) as (l2 & h2 & E2 & N2 & V2 & F2).
  destruct (SlowMPInt_of_int64_spec 0 h2) as (l3 & h3 & E3 & N3 & V3 & F3).
  assert (l1 <> l2) by congruence.
  assert (V21 : h2 !! l1 = Some a) by (rewrite F2 by assumption; assumption).
  assert (l1 <> l3) by congruence.
  assert (l2 <> l3) by congruence.
  assert (V31 : h3 !! l1 = Some a) by (rewrite F3 by assumption; assumption).
  assert (V32 : h3 !! l2 = Some b) by (rewrite F3 by assumption; assumption).
  exists (Storage.mpz_at l3), (<[l3 := a + b]> h3). split.
  - rewrite (bind_some _ _ _ _ _ E1), (bind_some _ _ _ _ _ E2).
    unfold Dispatch.Slow_add, Dispatch.SlowMPInt_default.
    rewrite (bind_some _ _ _ _ _ E3).
    unfold Dispatch.mpz_add, Dispatch.mpz_read, Dispatch.mpz_write,
      Dispatch.bind, Dispatch.ret.
    cbn [Storage.mpz_value Storage.mpz_set_si].
    rewrite V31. cbn [mbind option_bind]. rewrite V32. cbn [mbind option_bind].
    rewrite V3. reflexivity.
  - split; [cbn; apply lookup_insert_eq | apply of_Slow_none].
Qed.

(** [-SlowMPInt(v)] is an initialised object that holds [- v]. *)
Lemma fallback_neg_value v h :
  exists r h',
    Dispatch.bind (Dispatch.toSlow (Storage.Small v)) (fun x => Dispatch.Slow_neg x) h
      = Some (r, h') /\
    Storage.mpz_value r h' = Some (- v) /\
    Dispatch.of_Slow r h' = None.
Proof.
  cbn [Dispatch.toSlow].
  destruct (SlowMPInt_of_int64_spec v h) as (l1 & h1 & E1 & N1 & V1 & F1).
  destruct (SlowMPInt_of_int64_spec 0 h1) as (l2 & h2 & E2 & N2 & V2 & F2).
  assert (l1 <> l2) by congruence.
  assert (V21 : h2 !! l1 = Some v) by (rewrite F2 by assumption; assumption).
  exists (Storage.mpz_at l2), (<[l2 := - v]> h2). split.
  - rewrite (bind_some _ _ _ _ _ E1).
    unfold Dispatch.Slow_neg, Dispatch.SlowMPInt_default.
    rewrite (bind_some _ _ _ _ _ E2).
    unfold Dispatch.mpz_neg, Dispatch.mpz_read, Dispatch.mpz_write,
      Dispatch.bind, Dispatch.ret.
    cbn [Storage.mpz_value Storage.mpz_set_si].
    rewrite V21. cbn [mbind option_bind]. rewrite V2. reflexivity.
  - split; [cbn; apply lookup_insert_eq | apply of_Slow_none].
Qed.

(** ** The operators on small operands *)

Lemma add_small_run cc a b h :
  in_range a -> in_range b ->
  Dispatch.add cc (Storage.Small a) (Storage.Small b) h =
    if fits (a + b) then Some (Storage.Small (a + b), h) else None.
Proof.
  intros Ha Hb. unfold Dispatch.add. rewrite addOverflow_builtin by assumption.
  unfold builtin_add_overflow. destruct (fits (a + b)) eqn:Hf; cbn [negb].
  - apply fits_in_range in Hf. now rewrite to_signed_in_range.
  - apply via_Slow_none.
Qed.

Lemma sub_small_run cc a b h :
  in_range a -> in_range b ->
  Dispatch.sub cc (Storage.Small a) (Storage.Small b) h =
    if fits (a - b) then Some (Storage.Small (a - b), h) else None.
Proof.
  intros Ha Hb. unfold Dispatch.sub. rewrite subOverflow_builtin by assumption.
  unfold builtin_sub_overflow. destruct (fits (a - b)) eqn:Hf; cbn [negb].
  - apply fits_in_range in Hf. now rewrite to_signed_in_range.
  - apply via_Slow_none.
Qed.

Lemma mul_small_run cc a b h :
  in_range a -> in_range b ->
  Dispatch.mul cc (Storage.Small a) (Storage.Small b) h =
    if fits (a * b) then Some (Storage.Small (a * b), h) else None.
Proof.
  intros Ha Hb. unfold Dispatch.mul. rewrite mulOverflow_builtin by assumption.
  unfold builtin_mul_overflow. destruct (fits (a * b)) eqn:Hf; cbn [negb].
  - apply fits_in_range in Hf. now rewrite to_signed_in_range.
  - apply via_Slow_none.
Qed.

Lemma add_assign_small_run cc a b h :
  in_range a -> in_range b ->
  Dispatch.add_assign cc (Storage.Small a) (Storage.Small b) h =
    if fits (a + b) then Some (Storage.Small (a + b), h) else None.
Proof.
  intros Ha Hb. unfold Dispatch.add_assign. rewrite addOverflow_builtin by assumption.
  unfold builtin_add_overflow. destruct (fits (a + b)) eqn:Hf; cbn [negb].
  - apply fits_in_range in Hf. now rewrite to_signed_in_range.
  - apply via_Slow_assign_none.
Qed.

Lemma sub_assign_small_run cc a b h :
  in_range a -> in_range b ->
  Dispatch.sub_assign cc (Storage.Small a) (Storage.Small b) h =
    if fits (a - b) then Some (Storage.Small (a - b), h) else None.
Proof.
  intros Ha Hb. unfold Dispatch.sub_assign. rewrite subOverflow_builtin by assumption.
  unfold builtin_sub_overflow. destruct (fits (a - b)) eqn:Hf; cbn [negb].
  - apply fits_in_range in Hf. now rewrite to_signed_in_range.
  - apply via_Slow_assign_none.
Qed.

Lemma mul_assign_small_run cc a b h :
  in_range a -> in_range b ->
  Dispatch.mul_assign cc (Storage.Small a) (Storage.Small b) h =
    if fits (a * b) then Some (Storage.Small (a * b), h) else None.
Proof.
  intros Ha Hb. unfold Dispatch.mul_assign. rewrite mulOverflow_builtin by assumption.
  unfold builtin_mul_overflow. destruct (fits (a * b)) eqn:Hf; cbn [negb].
  - apply fits_in_range in Hf. now rewrite to_signed_in_range.
  - apply via_Slow_assign_none.
Qed.

Lemma div_small_run a b h :
  in_range a -> in_range b -> b <> 0 -> ~ (a = min_signed /\ b = -1) ->
  Dispatch.div (Storage.Small a) (Storage.Small b) h
    = Some (Storage.Small (Z.quot a b), h).
Proof.
  intros Ha Hb Hb0 Hn.
  assert (Hq : in_range (Z.quot a b)) by range_solve.
  unfold Dispatch.div. rewrite divWouldOverflow_fits by assumption.
  rewrite (proj2 (fits_in_range _) Hq). cbn [negb].
  now rewrite sdiv_some.
Qed.

Lemma gcd_small_run a b h :
  in_range a -> in_range b -> 0 <= a -> 0 <= b ->
  Dispatch.gcd (Storage.Small a) (Storage.Small b) h
    = Some (Storage.Small (Z.gcd a b), h).
Proof.
  intros Ha Hb Ha0 Hb0.
  unfold Dispatch.gcd, Dispatch.ge_int, Dispatch.bind, Dispatch.ret.
  rewrite (proj2 (Z.geb_le a 0) Ha0), (proj2 (Z.geb_le b 0) Hb0). cbn.
  unfold std_gcd. rewrite !Z.abs_eq by assumption.
  rewrite (proj2 (fits_in_range a) Ha), (proj2 (fits_in_range b) Hb).
  reflexivity.
Qed.

Lemma lcm_small_run cc a b h :
  in_range a -> in_range b -> a <> min_signed -> b <> min_signed ->
  ~ (a = 0 /\ b = 0) -> in_range (Z.abs (a * b)) ->
  Dispatch.lcm cc (Storage.Small a) (Storage.Small b) h
    = Some (Storage.Small (Z.quot (Z.abs (a * b)) (Z.gcd (Z.abs a) (Z.abs b))), h).
Proof.
  intros Ha Hb Hamin Hbmin Hnz Hab.
  assert (Hra : in_range (Z.abs a))
    by (unfold in_range, min_signed, max_signed in *; lia).
  assert (Hrb : in_range (Z.abs b))
    by (unfold in_range, min_signed, max_signed in *; lia).
  pose proof (gcd_abs_pos a b Hnz) as Hpos.
  assert (Hrg : in_range (Z.gcd (Z.abs a) (Z.abs b))).
  { apply (std_gcd_in_range (Z.abs a) (Z.abs b)). unfold std_gcd.
    rewrite !Z.abs_idemp.
    rewrite (proj2 (fits_in_range _) Hra), (proj2 (fits_in_range _) Hrb).
    reflexivity. }
  rewrite Z.abs_mul in *.
  unfold Dispatch.lcm.
  rewrite (bind_some _ _ _ _ _ (abs_small a h Hamin)).
  rewrite (bind_some _ _ _ _ _ (abs_small b h Hbmin)).
  erewrite bind_some
    by (rewrite mul_small_run by assumption;
        rewrite (proj2 (fits_in_range _) Hab); reflexivity).
  erewrite bind_some
    by (apply gcd_small_run; (assumption || apply Z.abs_nonneg)).
  apply div_small_run; try assumption; [lia|].
  pose proof (Z.abs_nonneg a). pose proof (Z.abs_nonneg b).
  unfold min_signed. nia.
Qed.

Lemma lcm_overflow_none cc a b h :
  in_range a -> in_range b -> ~ in_range (Z.abs (a * b)) ->
  Dispatch.lcm cc (Storage.Small a) (Storage.Small b) h = None.
Proof.
  intros Ha Hb Hab. unfold Dispatch.lcm.
  destruct (Z.eq_dec a min_signed) as [->|Hamin].
  { unfold Dispatch.bind at 1. now rewrite abs_min_none. }
  rewrite (bind_some _ _ _ _ _ (abs_small a h Hamin)).
  destruct (Z.eq_dec b min_signed) as [->|Hbmin].
  { unfold Dispatch.bind at 1. now rewrite abs_min_none. }
  rewrite (bind_some _ _ _ _ _ (abs_small b h Hbmin)).
  unfold Dispatch.bind at 1.
  rewrite mul_small_run
    by (unfold in_range, min_signed, max_signed in *; lia).
  rewrite Z.abs_mul in Hab. apply fits_false in Hab. now rewrite Hab.
Qed.

Lemma lcm_min_none cc a b h :
  a = min_signed \/ (a <> min_signed /\ b = min_signed) ->
  Dispatch.lcm cc (Storage.Small a) (Storage.Small b) h = None.
Proof.
  intros [->|[Hamin ->]]; unfold Dispatch.lcm.
  - unfold Dispatch.bind at 1. now rewrite abs_min_none.
  - rewrite (bind_some _ _ _ _ _ (abs_small a h Hamin)).
    unfold Dispatch.bind at 1. now rewrite abs_min_none.
Qed.

(** ** Promotion

    Every path that promotes ends in [MPInt(const SlowMPInt &)], and every
    path that reads a large operand starts with [operator SlowMPInt()] on
    it; both run the copy constructor of [SlowMPInt]. *)

(** C5.  On two small operands [operator+] and [operator+=] return the
    exact sum as a small value when the sum is a 64-bit value.  When it is
    not, the fallback ends in [MPInt(const SlowMPInt &)], whose member is
    copy-constructed from the [SlowMPInt] sum: [mpz_set] on an [mpz_t]
    that no [mpz_init] has initialised.  [operator+] and [operator+=] have
    no result there, whatever the heap. *)
Theorem add_promotion_has_no_result
    (cc : Compiler) (a b : Z) (h : gmap Storage.loc Z) :
  in_range a -> in_range b ->
  (in_range (a + b) ->
     Dispatch.add cc (Storage.Small a) (Storage.Small b) h
       = Some (Storage.Small (a + b), h) /\
     Dispatch.add_assign cc (Storage.Small a) (Storage.Small b) h
       = Some (Storage.Small (a + b), h)) /\
  (~ in_range (a + b) ->
     Dispatch.add cc (Storage.Small a) (Storage.Small b) h = None /\
     Dispatch.add_assign cc (Storage.Small a) (Storage.Small b) h = None).
Proof.
  intros Ha Hb. rewrite add_small_run, add_assign_small_run by assumption.
  split; intros Hs.
  - rewrite (proj2 (fits_in_range _) Hs). now split.
  - rewrite (proj2 (fits_false _) Hs). now split.
Qed.

Lemma add_promotion_has_no_result_witness :
  in_range 9223372036854775807 /\
  ~ in_range (9223372036854775807 + 9223372036854775807) /\
  Dispatch.add (mkCompiler false false false)
    (Storage.Small 9223372036854775807) (Storage.Small 9223372036854775807) ∅
    = None /\
  Dispatch.add (mkCompiler false false false)
    (Storage.Small 1) (Storage.Small 2) ∅ = Some (Storage.Small 3, ∅).
Proof.
  assert (H : in_range 9223372036854775807)
    by (unfold in_range, min_signed, max_signed; lia).
  assert (Hn : ~ in_range (9223372036854775807 + 9223372036854775807))
    by (unfold in_range, min_signed, max_signed; lia).
  assert (H1 : in_range 1) by (unfold in_range, min_signed, max_signed; lia).
  assert (H2 : in_range 2) by (unfold in_range, min_signed, max_signed; lia).
  assert (H3 : in_range (1 + 2)) by (unfold in_range, min_signed, max_signed; lia).
  split; [exact H | split; [exact Hn | split]].
  - exact (proj1 (proj2 (add_promotion_has_no_result
             (mkCompiler false false false) _ _ ∅ H H) Hn)).
  - exact (proj1 (proj1 (add_promotion_has_no_result
             (mkCompiler false false false) 1 2 ∅ H1 H2) H3)).
Defined.

(** C4.  [INT64_MIN / -1]: [operator/] and [operator/=] detect the case
    with [divWouldOverflow] and return [-*this].  The negation of the
    small [INT64_MIN] ends in [MPInt(const SlowMPInt &)], whose member is
    copy-constructed from the negated [SlowMPInt]: [mpz_set] on an [mpz_t]
    that no [mpz_init] has initialised.  The division has no result,
    whatever the heap.  Every other division of two small values by a
    divisor other than zero returns the truncated quotient, small. *)
Theorem div_min_by_minus_one_has_no_result (h : gmap Storage.loc Z) :
  detail.divWouldOverflow min_signed (-1) = true /\
  Dispatch.neg (Storage.Small min_signed) h = None /\
  Dispatch.div (Storage.Small min_signed) (Storage.Small (-1)) h = None /\
  Dispatch.div_assign (Storage.Small min_signed) (Storage.Small (-1)) h = None /\
  (forall a b, in_range a -> in_range b -> b <> 0 ->
     ~ (a = min_signed /\ b = -1) ->
     Dispatch.div (Storage.Small a) (Storage.Small b) h
       = Some (Storage.Small (Z.quot a b), h)).
Proof.
  split; [reflexivity|]. split; [|split; [|split]].
  - apply neg_min_none.
  - unfold Dispatch.div.
    change (detail.divWouldOverflow min_signed (-1)) with true. cbn iota.
    apply neg_min_none.
  - unfold Dispatch.div_assign.
    change (detail.divWouldOverflow min_signed (-1)) with true. cbn iota.
    unfold Dispatch.bind at 1. now rewrite neg_min_none.
  - intros a b. apply div_small_run.
Qed.

(** C7.  [gcd] of two small non-negative operands is their greatest common
    divisor, so [gcd(0, 0) = 0] and [gcd(a, 0) = a]; [lcm] of two small
    operands is [|a b| / gcd(|a|, |b|)] when [|a b|] is a 64-bit value and
    neither operand is [INT64_MIN].  When the product does not fit,
    [x * y] promotes; when an operand is [INT64_MIN], [abs] promotes; when
    an operand is large, it is converted to [SlowMPInt]: each of these
    runs the copy constructor of [SlowMPInt] on an [mpz_t] that no
    [mpz_init] has initialised, and [gcd] and [lcm] have no result. *)
Theorem lcm_promotion_has_no_result
    (cc : Compiler) (a b : Z) (h : gmap Storage.loc Z) :
  in_range a -> in_range b ->
  (0 <= a -> 0 <= b ->
     Dispatch.gcd (Storage.Small a) (Storage.Small b) h
       = Some (Storage.Small (Z.gcd a b), h)) /\
  (0 <= a ->
     Dispatch.gcd (Storage.Small a) (Storage.Small 0) h
       = Some (Storage.Small a, h)) /\
  (a <> min_signed -> b <> min_signed -> ~ (a = 0 /\ b = 0) ->
   in_range (Z.abs (a * b)) ->
     Dispatch.lcm cc (Storage.Small a) (Storage.Small b) h
       = Some (Storage.Small
                 (Z.quot (Z.abs (a * b)) (Z.gcd (Z.abs a) (Z.abs b))), h)) /\
  (~ in_range (Z.abs (a * b)) ->
     Dispatch.lcm cc (Storage.Small a) (Storage.Small b) h = None) /\
  (a = min_signed \/ b = min_signed ->
     Dispatch.lcm cc (Storage.Small a) (Storage.Small b) h = None) /\
  (forall m o,
     Dispatch.gcd (Storage.Large m) o h = None /\
     Dispatch.gcd o (Storage.Large m) h = None /\
     Dispatch.lcm cc (Storage.Large m) o h = None /\
     Dispatch.lcm cc o (Storage.Large m) h = None).
Proof.
  intros Ha Hb.
  assert (H0 : in_range 0) by (unfold in_range, min_signed, max_signed; lia).
  split; [|split; [|split; [|split; [|split]]]].
  - intros. now apply gcd_small_run.
  - intros Ha0. rewrite gcd_small_run by (assumption || lia).
    now rewrite Z.gcd_0_r, Z.abs_eq.
  - intros. now apply lcm_small_run.
  - intros. now apply lcm_overflow_none.
  - intros Hm. apply lcm_min_none.
    destruct (Z.eq_dec a min_signed); [now left | right; split; [assumption|tauto]].
  - intros m o. split; [|split; [|split]].
    + apply gcd_large_none. now left.
    + apply gcd_large_none. now right.
    + apply lcm_large_none. now left.
    + apply lcm_large_none. now right.
Qed.

Lemma lcm_promotion_has_no_result_witness :
  in_range 4294967296 /\ in_range 4294967297 /\
  ~ in_range (Z.abs (4294967296 * 4294967297)) /\
  Dispatch.lcm (mkCompiler false false false)
    (Storage.Small 4294967296) (Storage.Small 4294967297) ∅ = None /\
  Dispatch.gcd (Storage.Small 4294967296) (Storage.Small 0) ∅
    = Some (Storage.Small 4294967296, ∅).
Proof.
  assert (H1 : in_range 4294967296)
    by (unfold in_range, min_signed, max_signed; lia).
  assert (H2 : in_range 4294967297)
    by (unfold in_range, min_signed, max_signed; lia).
  assert (Hn : ~ in_range (Z.abs (4294967296 * 4294967297)))
    by (unfold in_range, min_signed, max_signed; lia).
  destruct (lcm_promotion_has_no_result (mkCompiler false false false) _ _ ∅ H1 H2)
    as (_ & Hg & _ & Hl & _).
  split; [exact H1 | split; [exact H2 | split; [exact Hn | split]]].
  - exact (Hl Hn).
  - apply Hg. lia.
Defined.



(** ** What a binary operation returns *)

Lemma lift_small_result (m : option Z) h r h' :
  Dispatch.lift (Storage.Small <$> m) h = Some (r, h') ->
  Dispatch.isSmall r = true /\ h' = h.
Proof. destruct m; cbn; [intros [= <- <-]; now split | discriminate]. Qed.

Lemma neg_small_result a h r h' :
  Dispatch.neg (Storage.Small a) h = Some (r, h') ->
  Dispatch.isSmall r = true /\ h' = h.
Proof.
  unfold Dispatch.neg. destruct (a =? min_signed); cbn [negb].
  - now rewrite neg_via_Slow_none.
  - intros [= <- <-]. now split.
Qed.

Lemma abs_small_result a h r h' :
  Dispatch.abs (Storage.Small a) h = Some (r, h') ->
  Dispatch.isSmall r = true /\ h' = h.
Proof.
  unfold Dispatch.abs, Dispatch.ge_int, Dispatch.bind, Dispatch.ret.
  destruct (a >=? 0).
  - cbn. intros [= <- <-]. now split.
  - apply neg_small_result.
Qed.

Lemma binop_small_result cc op a b h r h' :
  op <> OpLcm ->
  Dispatch.binop_eval cc op (Storage.Small a) (Storage.Small b) h = Some (r, h') ->
  Dispatch.isSmall r = true /\ h' = h.
Proof.
  intros Hop. destruct op; try contradiction; cbn [Dispatch.binop_eval].
  - unfold Dispatch.add. destruct (detail.addOverflow cc a b) as [res []]; cbn [negb].
    + now rewrite via_Slow_none.
    + intros [= <- <-]. now split.
  - unfold Dispatch.sub. destruct (detail.subOverflow cc a b) as [res []]; cbn [negb].
    + now rewrite via_Slow_none.
    + intros [= <- <-]. now split.
  - unfold Dispatch.mul. destruct (detail.mulOverflow cc a b) as [res []]; cbn [negb].
    + now rewrite via_Slow_none.
    + intros [= <- <-]. now split.
  - unfold Dispatch.div. destruct (detail.divWouldOverflow a b).
    + apply neg_small_result.
    + apply lift_small_result.
  - apply lift_small_result.
  - unfold Dispatch.divByPositive, Dispatch.gt_int, Dispatch.bind, Dispatch.ret.
    destruct (b >? 0); cbn; [apply lift_small_result | discriminate].
  - unfold Dispatch.ceilDiv. destruct (detail.divWouldOverflow a b).
    + apply neg_small_result.
    + apply lift_small_result.
  - unfold Dispatch.floorDiv. destruct (detail.divWouldOverflow a b).
    + apply neg_small_result.
    + apply lift_small_result.
  - apply lift_small_result.
  - unfold Dispatch.gcd, Dispatch.ge_int, Dispatch.bind, Dispatch.ret.
    destruct (a >=? 0); [destruct (b >=? 0)|]; cbn;
      [apply lift_small_result | discriminate | discriminate].
Qed.

Lemma lcm_small_result cc a b h r h' :
  Dispatch.lcm cc (Storage.Small a) (Storage.Small b) h = Some (r, h') ->
  Dispatch.isSmall r = true /\ h' = h.
Proof.
  unfold Dispatch.lcm. unfold Dispatch.bind at 1.
  destruct (Dispatch.abs (Storage.Small a) h) as [[x h1]|] eqn:Hx; [|discriminate].
  apply abs_small_result in Hx. destruct Hx as [Hx ->].
  destruct x as [x|]; [|discriminate].
  unfold Dispatch.bind at 1.
  destruct (Dispatch.abs (Storage.Small b) h) as [[y h1]|] eqn:Hy; [|discriminate].
  apply abs_small_result in Hy. destruct Hy as [Hy ->].
  destruct y as [y|]; [|discriminate].
  unfold Dispatch.bind at 1.
  destruct (Dispatch.mul cc (Storage.Small x) (Storage.Small y) h)
    as [[p h1]|] eqn:Hp; [|discriminate].
  apply (binop_small_result cc OpMul) in Hp; [|discriminate].
  destruct Hp as [Hp ->]. destruct p as [p|]; [|discriminate].
  unfold Dispatch.bind at 1.
  destruct (Dispatch.gcd (Storage.Small x) (Storage.Small y) h)
    as [[g h1]|] eqn:Hg; [|discriminate].
  apply (binop_small_result cc OpGcd) in Hg; [|discriminate].
  destruct Hg as [Hg ->]. destruct g as [g|]; [|discriminate].
  apply (binop_small_result cc OpDiv). discriminate.
Qed.

(** ** Further properties of the operators on small operands *)

(** X3.  On two small operands whose difference is a 64-bit value,
    [operator-] and [operator-=] return the exact difference as a small
    value and leave the heap as it was, with the intrinsic and with the
    portable [SubOverflow] alike. *)
Theorem sub_small_exact (cc : Compiler) (a b : Z) (h : gmap Storage.loc Z) :
  in_range a -> in_range b -> in_range (a - b) ->
  Dispatch.sub cc (Storage.Small a) (Storage.Small b) h
    = Some (Storage.Small (a - b), h) /\
  Dispatch.sub_assign cc (Storage.Small a) (Storage.Small b) h
    = Some (Storage.Small (a - b), h).
Proof.
  intros Ha Hb Hs.
  rewrite sub_small_run, sub_assign_small_run by assumption.
  rewrite (proj2 (fits_in_range _) Hs). now split.
Qed.

Lemma sub_small_exact_witness :
  in_range min_signed /\ in_range (-1) /\ in_range (min_signed - -1) /\
  Dispatch.sub (mkCompiler false false false)
    (Storage.Small min_signed) (Storage.Small (-1)) ∅
    = Some (Storage.Small (-9223372036854775807), ∅).
Proof.
  assert (H1 : in_range min_signed) by (unfold in_range, min_signed, max_signed; lia).
  assert (H2 : in_range (-1)) by (unfold in_range, min_signed, max_signed; lia).
  assert (H3 : in_range (min_signed - -1))
    by (unfold in_range, min_signed, max_signed; lia).
  split; [exact H1 | split; [exact H2 | split; [exact H3 |]]].
  exact (proj1 (sub_small_exact (mkCompiler false false false) _ _ ∅ H1 H2 H3)).
Defined.

(** X4.  On two small operands whose product is a 64-bit value,
    [operator*] and [operator*=] return the exact product as a small value
    and leave the heap as it was, with the intrinsic and with the
    portable [MulOverflow] alike. *)
Theorem mul_small_exact (cc : Compiler) (a b : Z) (h : gmap Storage.loc Z) :
  in_range a -> in_range b -> in_range (a * b) ->
  Dispatch.mul cc (Storage.Small a) (Storage.Small b) h
    = Some (Storage.Small (a * b), h) /\
  Dispatch.mul_assign cc (Storage.Small a) (Storage.Small b) h
    = Some (Storage.Small (a * b), h).
Proof.
  intros Ha Hb Hs.
  rewrite mul_small_run, mul_assign_small_run by assumption.
  rewrite (proj2 (fits_in_range _) Hs). now split.
Qed.

Lemma mul_small_exact_witness :
  in_range min_signed /\ in_range 1 /\ in_range (min_signed * 1) /\
  Dispatch.mul (mkCompiler false false false)
    (Storage.Small min_signed) (Storage.Small 1) ∅
    = Some (Storage.Small min_signed, ∅).
Proof.
  assert (H1 : in_range min_signed) by (unfold in_range, min_signed, max_signed; lia).
  assert (H2 : in_range 1) by (unfold in_range, min_signed, max_signed; lia).
  assert (H3 : in_range (min_signed * 1))
    by (unfold in_range, min_signed, max_signed; lia).
  split; [exact H1 | split; [exact H2 | split; [exact H3 |]]].
  exact (proj1 (mul_small_exact (mkCompiler false false false) _ _ ∅ H1 H2 H3)).
Defined.

(** X21.  [gcd] of two small non-negative operands returns the greatest
    common divisor as a small value: a 64-bit value that is not negative,
    divides both operands and is divided by every common divisor; the
    operands may be swapped, and the heap is left as it was. *)
Theorem gcd_small_greatest (a b : Z) (h : gmap Storage.loc Z) :
  in_range a -> in_range b -> 0 <= a -> 0 <= b ->
  Dispatch.gcd (Storage.Small a) (Storage.Small b) h
    = Some (Storage.Small (Z.gcd a b), h) /\
  Dispatch.gcd (Storage.Small b) (Storage.Small a) h
    = Some (Storage.Small (Z.gcd a b), h) /\
  in_range (Z.gcd a b) /\ 0 <= Z.gcd a b /\
  (Z.gcd a b | a) /\ (Z.gcd a b | b) /\
  (forall d, (d | a) -> (d | b) -> (d | Z.gcd a b)).
Proof.
  intros Ha Hb Ha0 Hb0.
  split; [now apply gcd_small_run|].
  split; [rewrite (Z.gcd_comm a b); now apply gcd_small_run|].
  split.
  { apply (std_gcd_in_range a b). unfold std_gcd.
    rewrite !Z.abs_eq by assumption.
    now rewrite (proj2 (fits_in_range a) Ha), (proj2 (fits_in_range b) Hb). }
  split; [apply Z.gcd_nonneg|].
  split; [apply Z.gcd_divide_l|]. split; [apply Z.gcd_divide_r|].
  intros d. apply Z.gcd_greatest.
Qed.

Lemma gcd_small_greatest_witness :
  in_range 12 /\ in_range 18 /\ 0 <= 12 /\ 0 <= 18 /\
  Dispatch.gcd (Storage.Small 12) (Storage.Small 18) ∅
    = Some (Storage.Small 6, ∅).
Proof.
  assert (H1 : in_range 12) by (unfold in_range, min_signed, max_signed; lia).
  assert (H2 : in_range 18) by (unfold in_range, min_signed, max_signed; lia).
  assert (H3 : 0 <= 12) by lia.
  assert (H4 : 0 <= 18) by lia.
  split; [exact H1 | split; [exact H2 | split; [exact H3 | split; [exact H4 |]]]].
  exact (proj1 (gcd_small_greatest 12 18 ∅ H1 H2 H3 H4)).
Defined.

(** X22.  [lcm] of two small operands other than [INT64_MIN] whose product
    has a 64-bit absolute value: when they are not both zero it returns
    the least common multiple as a small value, a 64-bit value that is
    not negative, and leaves the heap as it was; [lcm] of two zeros
    divides by zero and has no result. *)
Theorem lcm_small_least (cc : Compiler) (a b : Z) (h : gmap Storage.loc Z) :
  in_range a -> in_range b -> a <> min_signed -> b <> min_signed ->
  in_range (Z.abs (a * b)) ->
  (~ (a = 0 /\ b = 0) ->
     Dispatch.lcm cc (Storage.Small a) (Storage.Small b) h
       = Some (Storage.Small (Z.lcm a b), h) /\
     in_range (Z.lcm a b) /\ 0 <= Z.lcm a b /\
     Z.lcm a b * Z.gcd a b = Z.abs (a * b)) /\
  (a = 0 -> b = 0 ->
     Dispatch.lcm cc (Storage.Small a) (Storage.Small b) h = None).
Proof.
  intros Ha Hb Hamin Hbmin Hab. split.
  - intros Hnz.
    pose proof (quot_abs_gcd_lcm a b Hnz) as Hq.
    pose proof (quot_abs_gcd_mul a b Hnz) as Hm. rewrite Hq in Hm.
    pose proof (gcd_abs_pos a b Hnz) as Hpos.
    rewrite Z.gcd_abs_l, Z.gcd_abs_r in Hpos.
    pose proof (Z.lcm_nonneg a b) as Hl0.
    split.
    { rewrite lcm_small_run by assumption. rewrite Z.abs_mul, Hq. reflexivity. }
    split; [|split; [exact Hl0 | exact Hm]].
    unfold in_range, min_signed, max_signed in *. nia.
  - intros -> ->. unfold Dispatch.lcm.
    rewrite (bind_some _ _ _ _ _ (abs_small 0 h Hamin)).
    rewrite (bind_some _ _ _ _ _ (abs_small 0 h Hamin)).
    erewrite bind_some by (rewrite mul_small_run by assumption; reflexivity).
    erewrite bind_some by (apply gcd_small_run; (assumption || reflexivity || lia)).
    reflexivity.
Qed.

Lemma lcm_small_least_witness :
  in_range (-2147483648) /\ in_range 3221225472 /\
  in_range (Z.abs (-2147483648 * 3221225472)) /\
  Dispatch.lcm (mkCompiler false false false)
    (Storage.Small (-2147483648)) (Storage.Small 3221225472) ∅
    = Some (Storage.Small 6442450944, ∅).
Proof.
  assert (H1 : in_range (-2147483648))
    by (unfold in_range, min_signed, max_signed; lia).
  assert (H2 : in_range 3221225472)
    by (unfold in_range, min_signed, max_signed; lia).
  assert (H3 : -2147483648 <> min_signed) by (unfold min_signed; lia).
  assert (H4 : 3221225472 <> min_signed) by (unfold min_signed; lia).
  assert (H5 : in_range (Z.abs (-2147483648 * 3221225472))).
  { unfold in_range, min_signed, max_signed. lia. }
  split; [exact H1 | split; [exact H2 | split; [exact H5 |]]].
  refine (proj1 (proj1 (lcm_small_least (mkCompiler false false false)
                          _ _ ∅ H1 H2 H3 H4 H5) _)).
  lia.
Defined.

(** X30.  Whatever a binary operation returns, it returns on two small
    operands, as a small value, and with the heap as it was: the fast
    paths construct no [SlowMPInt]. *)
Theorem operations_return_small
    (cc : Compiler) (op : binop) (x o r : Storage.MPInt) (h h' : gmap Storage.loc Z) :
  Dispatch.binop_eval cc op x o h = Some (r, h') ->
  Dispatch.isSmall x = true /\ Dispatch.isSmall o = true /\
  Dispatch.isSmall r = true /\ h' = h.
Proof.
  intros Hr.
  destruct x as [a|m].
  2:{ rewrite binop_large_none in Hr by (now left). discriminate. }
  destruct o as [b|m].
  2:{ rewrite binop_large_none in Hr by (now right). discriminate. }
  split; [reflexivity | split; [reflexivity|]].
  destruct (match op with OpLcm => true | _ => false end) eqn:Hop.
  - destruct op; try discriminate. now apply lcm_small_result in Hr.
  - apply (binop_small_result cc op a b h); [|exact Hr].
    intros ->. discriminate.
Qed.

Lemma operations_return_small_witness :
  Dispatch.binop_eval (mkCompiler false false false) OpFloorDiv
    (Storage.Small (-7)) (Storage.Small 2) ∅ = Some (Storage.Small (-4), ∅) /\
  Dispatch.isSmall (Storage.Small (-4)) = true.
Proof.
  assert (H : Dispatch.binop_eval (mkCompiler false false false) OpFloorDiv
                (Storage.Small (-7)) (Storage.Small 2) ∅
              = Some (Storage.Small (-4), ∅)) by reflexivity.
  split; [exact H|].
  exact (proj1 (proj2 (proj2 (operations_return_small _ _ _ _ _ _ _ H)))).
Defined.
